(** * Cloth simulation: point masses, distance constraints and the curtain

    A shallow embedding of [src/code.py] (classes [PointMass] and [Curtain]).

    Python objects are mutable and shared: a connection of one point holds a
    reference to another point, and [solve_constraints] writes through it.
    The embedding therefore keeps all points in one store (a list, in the
    order of [Curtain.points]); a reference is an index into that store and
    a method that mutates points maps a store to a store.

    The arithmetic of the program is the one of Python numbers.  The
    definitions are written once over an interface [Number] and are used
    at two instances: the real numbers (exact arithmetic, for the algebraic
    properties) and binary64 floats (executable).  The operations of the
    interface are total: a Python operation that raises ([OverflowError]
    of [**] on floats beyond about 1.3e154) has no counterpart in it. *)

From Stdlib Require Import ZArith Reals Lra Lia List.
From Stdlib Require Import Floats.PrimFloat Numbers.Cyclic.Int63.Uint63.
From stdpp Require Import base list.

(** ** Numbers *)

Class Number (N : Type) := {
  of_int : Z -> N;          (* an int where a number is expected *)
  add : N -> N -> N;        (* a + b *)
  sub : N -> N -> N;        (* a - b *)
  mul : N -> N -> N;        (* a * b *)
  div : N -> N -> N;        (* a / b *)
  pow2 : N -> N;            (* a ** 2 *)
  sqrt : N -> N;            (* math.sqrt(a) *)
  ltb : N -> N -> bool;     (* a < b *)
  eqb : N -> N -> bool      (* a == b *)
}.

Section PyNumbers.
Context {N : Type} `{Number N}.

(** The decimal literal [m]e-[k], e.g. [9.8] is [decimal 98 1]. *)
Definition decimal (m : Z) (k : nat) : N := div (of_int m) (of_int (10 ^ Z.of_nat k)).

(** [min(a, b)] and [max(a, b)] of two arguments, as CPython evaluates
    them: the first argument is kept unless the second is strictly
    smaller (resp. larger). *)
Definition py_min (a b : N) : N := if ltb b a then b else a.
Definition py_max (a b : N) : N := if ltb a b then b else a.

(** Constants of the module (lines 5-14). *)
Definition SCREEN_WIDTH : Z := 640.
Definition SCREEN_HEIGHT : Z := 480.
Definition CURTAIN_WIDTH : Z := 60.
Definition CURTAIN_HEIGHT : Z := 40.
Definition START_Y : Z := 50.
Definition RESTING_DISTANCE : Z := 10.
Definition STIFFNESS : N := decimal 5 1.
Definition MOUSE_INFLUENCE_SIZE : Z := 20.
Definition MOUSE_TEAR_SIZE : Z := 8.
Definition GRAVITY : N := decimal 98 1.
End PyNumbers.

(** Exact arithmetic. *)
#[export] Instance R_Number : Number R := {|
  of_int := IZR;
  add := Rplus;
  sub := Rminus;
  mul := Rmult;
  div := Rdiv;
  pow2 := fun a => Rmult a a;
  sqrt := R_sqrt.sqrt;
  ltb := fun a b => if Rlt_dec a b then true else false;
  eqb := fun a b => if Req_dec_T a b then true else false
|}.

(** binary64, as in CPython (for ints below 2^63 in absolute value, and as
    long as no intermediate result overflows, where Python raises).
    [a ** 2] is the product [a * a] rounded once; CPython takes it from the
    [pow] of the C library, which may differ from it in the last bit when
    the square is not a binary64 number (the squares taken in the runs of
    this file are). *)
Definition float_of_int (z : Z) : float :=
  match z with
  | Z0 => PrimFloat.of_uint63 0%uint63
  | Zpos _ => PrimFloat.of_uint63 (Uint63.of_Z z)
  | Zneg p => PrimFloat.opp (PrimFloat.of_uint63 (Uint63.of_Z (Zpos p)))
  end.

#[export] Instance float_Number : Number float := {|
  of_int := float_of_int;
  add := PrimFloat.add;
  sub := PrimFloat.sub;
  mul := PrimFloat.mul;
  div := PrimFloat.div;
  pow2 := fun a => PrimFloat.mul a a;
  sqrt := PrimFloat.sqrt;
  ltb := PrimFloat.ltb;
  eqb := PrimFloat.eqb
|}.

(** A reference to a point: its index in the store. *)
Abbreviation ref := nat (only parsing).

(** ** class PointMass *)
Module PointMass.
Section Defs.
Context {N : Type} `{Number N}.

Record t := mk {
  x : N;
  y : N;
  prev_x : N;
  prev_y : N;
  fixed : bool;
  connections : list (ref * N * N)   (* (other, resting_distance, stiffness) *)
}.

(** [__init__(self, x, y, fixed=False)] *)
Definition init (x0 y0 : N) (fixed0 : bool) : t :=
  mk x0 y0 x0 y0 fixed0 [].

(** [update(self, dt)]: Verlet integration; reads and writes [self] only. *)
Definition update (dt : N) (self : t) : t :=
  if negb (fixed self) then
    let velocity_x := sub (x self) (prev_x self) in
    let velocity_y := sub (y self) (prev_y self) in
    mk (add (x self) velocity_x)
       (add (y self) (add velocity_y (mul (mul GRAVITY dt) dt)))
       (x self) (y self) (fixed self) (connections self)
  else self.

(** [apply_constraint(self, width, height)] *)
Definition apply_constraint (width height : N) (self : t) : t :=
  mk (py_max (of_int 0) (py_min width (x self)))
     (py_max (of_int 0) (py_min height (y self)))
     (prev_x self) (prev_y self) (fixed self) (connections self).

(** Assignments to [p.x] and [p.y], and to [p.connections]. *)
Definition set_pos (p : t) (x' y' : N) : t :=
  mk x' y' (prev_x p) (prev_y p) (fixed p) (connections p).
Definition set_connections (p : t) (cs : list (ref * N * N)) : t :=
  mk (x p) (y p) (prev_x p) (prev_y p) (fixed p) cs.

(** [attach_to(self, other, resting_distance, stiffness)], on the point
    [self] of the store. *)
Definition attach_to (heap : list t) (self other : ref)
    (resting_distance stiffness : N) : list t :=
  match heap !! self with
  | Some s =>
      <[self := set_connections s
                  (connections s ++ [(other, resting_distance, stiffness)])]> heap
  | None => heap
  end.

(** The body of the loop of [solve_constraints] (lines 46-58) for one
    connection.  [other] may be [self] itself; the second update reads
    the store left by the first.  A reference always denotes an object
    in Python; for an index outside the store the step does nothing. *)
Definition solve_connection (self : ref) (heap : list t) (c : ref * N * N) : list t :=
  let '(other, resting_distance, stiffness) := c in
  match heap !! self, heap !! other with
  | Some s, Some o =>
      let dx := sub (x o) (x s) in
      let dy := sub (y o) (y s) in
      let distance := sqrt (add (pow2 dx) (pow2 dy)) in
      if eqb distance (of_int 0) then heap
      else
        let error := div (sub resting_distance distance) distance in
        let correction := mul (mul error (decimal 5 1)) stiffness in
        let heap1 :=
          if negb (fixed s) then
            <[self := set_pos s (sub (x s) (mul correction dx))
                                (sub (y s) (mul correction dy))]> heap
          else heap in
        match heap1 !! other with
        | Some o1 =>
            if negb (fixed o1) then
              <[other := set_pos o1 (add (x o1) (mul correction dx))
                                    (add (y o1) (mul correction dy))]> heap1
            else heap1
        | None => heap1
        end
  | _, _ => heap
  end.

(** [solve_constraints(self)]: the loop runs over the connection list
    that [self] has when the call starts. *)
Definition solve_constraints (heap : list t) (self : ref) : list t :=
  match heap !! self with
  | Some s => fold_left (solve_connection self) (connections s) heap
  | None => heap
  end.
End Defs.
Arguments t N : clear implicits.
End PointMass.

(** ** Loops and indexing *)

(** [range(n)] for an int [n]: empty when [n <= 0]. *)
Definition range (n : Z) : list Z := seqZ 0 n.

(** [l[k]] on a list of length [len], as a reference: a negative [k]
    counts from the end; [None] is Python's [IndexError]. *)
Definition getitem (len : nat) (k : Z) : option ref :=
  let i := (if k <? 0 then Z.of_nat len + k else k)%Z in
  if ((0 <=? i) && (i <? Z.of_nat len))%Z then Some (Z.to_nat i) else None.

(** [for a in l: s = body(a, s)], where the body may raise. *)
Fixpoint for_each {A S : Type} (l : list A) (body : A -> S -> option S) (s : S)
    : option S :=
  match l with
  | [] => Some s
  | a :: l' =>
      match body a s with
      | Some s' => for_each l' body s'
      | None => None
      end
  end.

(** ** class Curtain *)
Module Curtain.
Section Defs.
Context {N : Type} `{Number N}.

Record t := mk {
  points : list (PointMass.t N);
  width : Z;
  height : Z;
  resting_distance : N
}.

Definition set_points (self : t) (pts : list (PointMass.t N)) : t :=
  mk pts (width self) (height self) (resting_distance self).

(** The body of the inner loop of [create_points] (lines 77-88), at row
    [y] and column [x]. *)
Definition create_point (width : Z) (resting_distance start_y : N) (y x : Z)
    (points : list (PointMass.t N)) : option (list (PointMass.t N)) :=
  let pos_x := mul (of_int x) resting_distance in
  let pos_y := add start_y (mul (of_int y) resting_distance) in
  let fixed := (y =? 0)%Z in
  let point := length points in
  let points := points ++ [PointMass.init pos_x pos_y fixed] in
  match
    (if (0 <? x)%Z then
       match getitem (length points) (-2) with
       | Some left_pt => Some (PointMass.attach_to points point left_pt resting_distance STIFFNESS)
       | None => None
       end
     else Some points)
  with
  | Some points =>
      if (0 <? y)%Z then
        match getitem (length points) (- (width + 2)) with
        | Some top_pt => Some (PointMass.attach_to points point top_pt resting_distance STIFFNESS)
        | None => None
        end
      else Some points
  | None => None
  end.

(** [create_points(self, start_y)] *)
Definition create_points (self : t) (start_y : N) : option t :=
  match
    for_each (range (height self + 1))
      (fun y => for_each (range (width self + 1))
                  (create_point (width self) (resting_distance self) start_y y))
      (points self)
  with
  | Some pts => Some (set_points self pts)
  | None => None
  end.

(** [__init__(self, width, height, start_y, resting_distance)] *)
Definition init (width height : Z) (start_y resting_distance : N) : option t :=
  create_points (mk [] width height resting_distance) start_y.

(** [for point in self.points: point.m(...)] for a method [m] of the
    point at a given reference. *)
Definition for_points (m : list (PointMass.t N) -> ref -> list (PointMass.t N))
    (pts : list (PointMass.t N)) : list (PointMass.t N) :=
  fold_left m (seq 0 (length pts)) pts.

(** A method that touches [self] only, called on the point at [i]. *)
Definition call (m : PointMass.t N -> PointMass.t N)
    (heap : list (PointMass.t N)) (i : ref) : list (PointMass.t N) :=
  match heap !! i with
  | Some p => <[i := m p]> heap
  | None => heap
  end.

(** [update(self, dt)] *)
Definition update (dt : N) (self : t) : t :=
  let pts := for_points (call (PointMass.update dt)) (points self) in
  let pts :=
    fold_left (fun pts _ => for_points PointMass.solve_constraints pts)
              (range 5) pts in
  set_points self pts.

(** [apply_constraints(self, screen_width, screen_height)] *)
Definition apply_constraints (screen_width screen_height : N) (self : t) : t :=
  set_points self
    (for_points (call (PointMass.apply_constraint screen_width screen_height))
                (points self)).

(** The body of the loop of [interact_with_mouse] (lines 107-119). *)
Definition interact_point (mouse_pos : N * N) (left_click right_click : bool)
    (point : PointMass.t N) : PointMass.t N :=
  let dx := sub (PointMass.x point) (fst mouse_pos) in
  let dy := sub (PointMass.y point) (snd mouse_pos) in
  let distance := add (pow2 dx) (pow2 dy) in
  let point :=
    if left_click && ltb distance (of_int (MOUSE_INFLUENCE_SIZE ^ 2)) then
      if negb (PointMass.fixed point) then
        PointMass.set_pos point (fst mouse_pos) (snd mouse_pos)
      else point
    else point in
  if right_click && ltb distance (of_int (MOUSE_TEAR_SIZE ^ 2)) then
    PointMass.set_connections point []
  else point.

(** [interact_with_mouse(self, mouse_pos, left_click, right_click)] *)
Definition interact_with_mouse (mouse_pos : N * N) (left_click right_click : bool)
    (self : t) : t :=
  set_points self
    (for_points (call (interact_point mouse_pos left_click right_click))
                (points self)).

(** One iteration of the loop of [main] (lines 141-143), the screen
    size and the sampled input being given. *)
Definition frame (dt : N) (mouse_pos : N * N) (left_click right_click : bool)
    (self : t) : t :=
  interact_with_mouse mouse_pos left_click right_click
    (apply_constraints (of_int SCREEN_WIDTH) (of_int SCREEN_HEIGHT)
       (update dt self)).
End Defs.
Arguments t N : clear implicits.
End Curtain.

(** ** The grid as the specification lays it out

    These definitions follow the words of the specification, not the code;
    the construction of [Curtain] is compared with them below. *)
Section Layout.
Context {N : Type} `{Number N}.

(** Row-major index of the point at column [col] of row [row]. *)
Definition index (width row col : Z) : ref :=
  Z.to_nat (row * (width + 1) + col).

(** The point at column [col] of row [row]: at rest at
    [(col * resting_distance, start_y + row * resting_distance)], fixed on
    row 0, linked to its left neighbour if it has one, then to the point
    above if there is one. *)
Definition grid_point (width : Z) (start_y resting_distance : N) (row col : Z)
    : PointMass.t N :=
  PointMass.mk
    (mul (of_int col) resting_distance)
    (add start_y (mul (of_int row) resting_distance))
    (mul (of_int col) resting_distance)
    (add start_y (mul (of_int row) resting_distance))
    (row =? 0)%Z
    ((if (0 <? col)%Z
      then [(index width row (col - 1), resting_distance, STIFFNESS)] else [])
     ++
     (if (0 <? row)%Z
      then [(index width (row - 1) col, resting_distance, STIFFNESS)] else [])).

Definition grid_row (width : Z) (start_y resting_distance : N) (row : Z)
    : list (PointMass.t N) :=
  map (grid_point width start_y resting_distance row) (range (width + 1)).

Definition grid_points (width height : Z) (start_y resting_distance : N)
    : list (PointMass.t N) :=
  concat (map (grid_row width start_y resting_distance) (range (height + 1))).
End Layout.

(** ** Sample data *)

(** Two points in binary64: a fixed one at the origin and a free one at
    (3, 4) hanging from it by a link of resting distance 10. *)
Definition pin : PointMass.t float := PointMass.init (of_int 0) (of_int 0) true.
Definition bob : PointMass.t float :=
  PointMass.mk (of_int 3) (of_int 4) (of_int 3) (of_int 4) false
               [(0%nat, of_int 10, STIFFNESS)].
Definition pendulum : list (PointMass.t float) := [pin; bob].

(** The same store with a third, free point that nothing links to and
    that has no connection. *)
Definition loose : PointMass.t float := PointMass.init (of_int 7) (of_int 7) false.
Definition chain : list (PointMass.t float) := [pin; bob; loose].

(** A free point at rest at the origin, and two free points far from the
    origin, at (2^57, 0) and (2^57 + 32, 0), the first linked to the second
    at resting distance 10. *)
Definition origin : PointMass.t float := PointMass.init (of_int 0) (of_int 0) false.
Definition far : list (PointMass.t float) :=
  [PointMass.mk (of_int (2 ^ 57)) (of_int 0) (of_int (2 ^ 57)) (of_int 0) false
                [(1%nat, of_int 10, STIFFNESS)];
   PointMass.mk (of_int (2 ^ 57 + 32)) (of_int 0) (of_int (2 ^ 57 + 32)) (of_int 0)
                false []].

(** Over the real numbers: the free point; a fixed point outside the
    screen; and a pair of free points at distance 5, the first linked to the
    second at resting distance 10. *)
Definition bobR : PointMass.t R :=
  PointMass.mk 3%R 4%R 3%R 4%R false [(0%nat, 10%R, STIFFNESS)].
Definition strayR : PointMass.t R :=
  PointMass.mk (-5)%R 700%R (-5)%R 700%R true [].
Definition pair : list (PointMass.t R) :=
  [PointMass.mk 0%R 0%R 0%R 0%R false [(1%nat, 10%R, STIFFNESS)];
   PointMass.mk 3%R 4%R 3%R 4%R false []].

(** ** Measures over the real numbers *)

(** Clamping into an interval, in the words of the specification. *)
Definition clamp (lo hi v : R) : R :=
  if Rlt_dec v lo then lo else if Rlt_dec hi v then hi else v.

(** The Euclidean distance between two points. *)
Definition distance (p q : PointMass.t R) : R :=
  R_sqrt.sqrt ((PointMass.x q - PointMass.x p) * (PointMass.x q - PointMass.x p)
               + (PointMass.y q - PointMass.y p) * (PointMass.y q - PointMass.y p)).

(** The distance between the points at two references of a store. *)
Definition distance_between (heap : list (PointMass.t R)) (a b : ref) : R :=
  match heap !! a, heap !! b with
  | Some p, Some q => distance p q
  | _, _ => 0%R
  end.

(** The state in which the claim is read: the point at [a] owns one
    link, to the point at [b]; neither is fixed and they do not
    coincide. *)
Definition linked (heap : list (PointMass.t R)) (a b : ref) (r st d : R) : Prop :=
  exists s o : PointMass.t R,
    heap !! a = Some s /\ heap !! b = Some o /\
    PointMass.fixed s = false /\ PointMass.fixed o = false /\
    PointMass.connections s = [(b, r, st)] /\
    distance s o = d /\ (0 < d)%R.

(** [n] relaxation passes of the point at [self]: [n] calls of
    [self.solve_constraints()]. *)
Definition passes (n : nat) (heap : list (PointMass.t R)) (self : ref)
    : list (PointMass.t R) :=
  Nat.iter n (fun h => PointMass.solve_constraints h self) heap.

(** ** The loop of [main] *)
Module Main.
Section Defs.
Context {N : Type} `{Number N}.

(** What one turn of the loop reads from the clock and the mouse (lines
    132-134). *)
Record input := mk_input {
  dt : N;
  mouse_pos : N * N;
  left_click : bool;
  right_click : bool
}.

(** The curtain built on line 128. *)
Definition curtain : option (Curtain.t N) :=
  Curtain.init CURTAIN_WIDTH CURTAIN_HEIGHT (of_int START_Y) (of_int RESTING_DISTANCE).

(** The curtain after the turns of the loop that read [inputs], in order
    (lines 131-143; drawing does not change the curtain). *)
Definition run (inputs : list input) (c : Curtain.t N) : Curtain.t N :=
  fold_left
    (fun c i => Curtain.frame (dt i) (mouse_pos i) (left_click i) (right_click i) c)
    inputs c.
End Defs.
Arguments input N : clear implicits.
End Main.

(** ** Relations between a point before and after an operation *)
Section Relations.
Context {N : Type} `{Number N}.

(** Only the position may differ. *)
Definition same_but_pos (p p' : PointMass.t N) : Prop :=
  PointMass.prev_x p' = PointMass.prev_x p /\
  PointMass.prev_y p' = PointMass.prev_y p /\
  PointMass.fixed p' = PointMass.fixed p /\
  PointMass.connections p' = PointMass.connections p.

(** The flag is kept, and the connections are kept or emptied. *)
Definition same_or_torn (p p' : PointMass.t N) : Prop :=
  PointMass.fixed p' = PointMass.fixed p /\
  (PointMass.connections p' = PointMass.connections p \/
   PointMass.connections p' = []).
End Relations.

(** Inside the rectangle [[0, width] x [0, height]]. *)
Definition inside (width height : R) (p : PointMass.t R) : Prop :=
  (0 <= PointMass.x p <= width)%R /\ (0 <= PointMass.y p <= height)%R.

(** Sums of the coordinates of the points of a store. *)
Definition sum_x (heap : list (PointMass.t R)) : R :=
  fold_right (fun p acc => (PointMass.x p + acc)%R) 0%R heap.
Definition sum_y (heap : list (PointMass.t R)) : R :=
  fold_right (fun p acc => (PointMass.y p + acc)%R) 0%R heap.

(** The same with the point at [b] fixed: the point at [a] hangs from
    it. *)
Definition anchored (heap : list (PointMass.t R)) (a b : nat) (r st d : R)
    (o : PointMass.t R) : Prop :=
  exists s : PointMass.t R,
    heap !! a = Some s /\ heap !! b = Some o /\
    PointMass.fixed s = false /\ PointMass.fixed o = true /\
    PointMass.connections s = [(b, r, st)] /\
    distance s o = d /\ (0 < d)%R.

(** More stores over the real numbers: two free points at the resting
    distance 5 of their link; two free points on one spot; a free point
    hanging from a fixed one. *)
Definition rested : list (PointMass.t R) :=
  [PointMass.mk 0%R 0%R 0%R 0%R false [(1%nat, 5%R, STIFFNESS)];
   PointMass.mk 3%R 4%R 3%R 4%R false []].
Definition stacked : list (PointMass.t R) :=
  [PointMass.mk 1%R 1%R 1%R 1%R false [(1%nat, 10%R, STIFFNESS)];
   PointMass.mk 1%R 1%R 0%R 0%R false []].
Definition hanging : list (PointMass.t R) :=
  [PointMass.mk 3%R 4%R 3%R 4%R false [(1%nat, 10%R, STIFFNESS)];
   PointMass.mk 0%R 0%R 0%R 0%R true []].

(** A store without fixed points. *)
Definition all_free (heap : list (PointMass.t R)) : Prop :=
  Forall (fun p => PointMass.fixed p = false) heap.

(** * Properties that hold for every arithmetic *)
Section Structure.
Context {N : Type} `{Number N}.
Implicit Types (heap pts : list (PointMass.t N)) (p q s o : PointMass.t N).
Implicit Types (self other i j k : ref).

(** ** Loops over the points *)

Lemma call_length m heap i : length (Curtain.call m heap i) = length heap.
Proof.
  unfold Curtain.call. destruct (heap !! i); [apply length_insert | reflexivity].
Qed.

Lemma call_middle m (seen todo : list (PointMass.t N)) p :
  Curtain.call m (seen ++ p :: todo) (length seen) = (seen ++ [m p]) ++ todo.
Proof.
  unfold Curtain.call. rewrite list_lookup_middle by reflexivity.
  rewrite insert_app_r_alt by lia. rewrite Nat.sub_diag. simpl.
  now rewrite <- app_assoc.
Qed.

Lemma fold_call_from m (todo seen : list (PointMass.t N)) :
  fold_left (Curtain.call m) (seq (length seen) (length todo)) (seen ++ todo)
  = seen ++ map m todo.
Proof.
  revert seen. induction todo as [|p todo IH]; intros seen; simpl.
  - reflexivity.
  - rewrite call_middle.
    replace (S (length seen)) with (length (seen ++ [m p]))
      by (rewrite length_app; simpl; lia).
    rewrite IH. now rewrite <- app_assoc.
Qed.

(** A loop that calls, on every point in turn, a method touching that point
    only, applies the method once to each point. *)
Lemma for_points_call m pts :
  Curtain.for_points (Curtain.call m) pts = map m pts.
Proof.
  unfold Curtain.for_points. apply (fold_call_from m pts []).
Qed.

(** ** The frame of [solve_constraints] *)

Lemma solve_connection_length self heap c :
  length (PointMass.solve_connection self heap c) = length heap.
Proof.
  unfold PointMass.solve_connection. destruct c as [[other rd] st].
  destruct (heap !! self) as [s|]; [|reflexivity].
  destruct (heap !! other) as [o|]; [|reflexivity].
  destruct (eqb _ _); [reflexivity|].
  set (heap1 := if negb (PointMass.fixed s) then _ else heap).
  assert (Hlen : length heap1 = length heap).
  { subst heap1. destruct (negb _); [apply length_insert | reflexivity]. }
  destruct (heap1 !! other) as [o1|]; [|exact Hlen].
  destruct (negb (PointMass.fixed o1)); [rewrite length_insert|]; exact Hlen.
Qed.

Lemma solve_connections_length self cs heap :
  length (fold_left (PointMass.solve_connection self) cs heap) = length heap.
Proof.
  revert heap. induction cs as [|c cs IH]; intros heap; simpl; [reflexivity|].
  rewrite IH. apply solve_connection_length.
Qed.

Lemma solve_constraints_length heap self :
  length (PointMass.solve_constraints heap self) = length heap.
Proof.
  unfold PointMass.solve_constraints.
  destruct (heap !! self); [apply solve_connections_length | reflexivity].
Qed.

(** Writing a point that is not fixed leaves every fixed point in place. *)
Lemma insert_free_keeps_fixed heap i k p q q' :
  heap !! k = Some p -> PointMass.fixed p = true ->
  heap !! i = Some q -> PointMass.fixed q = false ->
  <[i := q']> heap !! k = Some p.
Proof.
  intros Hk Hp Hi Hq. rewrite list_lookup_insert_ne; [exact Hk|].
  intros ->. congruence.
Qed.

Lemma solve_connection_fixed self heap c k p :
  heap !! k = Some p -> PointMass.fixed p = true ->
  PointMass.solve_connection self heap c !! k = Some p.
Proof.
  intros Hk Hp. unfold PointMass.solve_connection. destruct c as [[other rd] st].
  destruct (heap !! self) as [s|] eqn:Hs; [|exact Hk].
  destruct (heap !! other) as [o|] eqn:Ho; [|exact Hk].
  destruct (eqb _ _); [exact Hk|].
  set (heap1 := if negb (PointMass.fixed s) then _ else heap).
  assert (Hk1 : heap1 !! k = Some p).
  { subst heap1. destruct (PointMass.fixed s) eqn:Hf; simpl; [exact Hk|].
    eapply insert_free_keeps_fixed; eauto. }
  destruct (heap1 !! other) as [o1|] eqn:Ho1; [|exact Hk1].
  destruct (PointMass.fixed o1) eqn:Hf1; simpl; [exact Hk1|].
  eapply insert_free_keeps_fixed; eauto.
Qed.

Lemma solve_connections_fixed self cs heap k p :
  heap !! k = Some p -> PointMass.fixed p = true ->
  fold_left (PointMass.solve_connection self) cs heap !! k = Some p.
Proof.
  revert heap. induction cs as [|c cs IH]; intros heap Hk Hp; simpl; [exact Hk|].
  apply IH; [|exact Hp]. now apply solve_connection_fixed.
Qed.

Lemma solve_constraints_fixed heap self k p :
  heap !! k = Some p -> PointMass.fixed p = true ->
  PointMass.solve_constraints heap self !! k = Some p.
Proof.
  intros Hk Hp. unfold PointMass.solve_constraints.
  destruct (heap !! self); [now apply solve_connections_fixed | exact Hk].
Qed.

Lemma update_fixed dt p : PointMass.fixed p = true -> PointMass.update dt p = p.
Proof. intros Hp. unfold PointMass.update. now rewrite Hp. Qed.
(** One connection between two different points, as two writes. *)
Lemma solve_connection_apart heap self other (rd st : N) s o :
  heap !! self = Some s -> heap !! other = Some o -> self <> other ->
  let dx := sub (PointMass.x o) (PointMass.x s) in
  let dy := sub (PointMass.y o) (PointMass.y s) in
  let distance := sqrt (add (pow2 dx) (pow2 dy)) in
  let correction := mul (mul (div (sub rd distance) distance) (decimal 5 1)) st in
  PointMass.solve_connection self heap (other, rd, st)
  = if eqb distance (of_int 0) then heap
    else <[other := if PointMass.fixed o then o else
              PointMass.set_pos o (add (PointMass.x o) (mul correction dx))
                                  (add (PointMass.y o) (mul correction dy))]>
         (<[self := if PointMass.fixed s then s else
              PointMass.set_pos s (sub (PointMass.x s) (mul correction dx))
                                  (sub (PointMass.y s) (mul correction dy))]> heap).
Proof.
  intros Hs Ho Hne. cbv zeta.
  unfold PointMass.solve_connection. rewrite Hs, Ho.
  destruct (eqb _ _); [reflexivity|].
  destruct (PointMass.fixed s) eqn:Fs; cbn [negb].
  - rewrite Ho, (list_insert_id heap self s Hs).
    destruct (PointMass.fixed o); cbn [negb]; [|reflexivity].
    now rewrite (list_insert_id heap other o Ho).
  - rewrite list_lookup_insert_ne by exact Hne. rewrite Ho.
    destruct (PointMass.fixed o); cbn [negb]; [|reflexivity].
    rewrite (list_insert_id _ other o); [reflexivity|].
    now rewrite list_lookup_insert_ne by exact Hne.
Qed.

(** A point that is not fixed, after [update]. *)
Lemma update_free dt p :
  PointMass.fixed p = false ->
  PointMass.update dt p
  = PointMass.mk
      (add (PointMass.x p) (sub (PointMass.x p) (PointMass.prev_x p)))
      (add (PointMass.y p)
           (add (sub (PointMass.y p) (PointMass.prev_y p))
                (mul (mul GRAVITY dt) dt)))
      (PointMass.x p) (PointMass.y p) false (PointMass.connections p).
Proof. intros Hp. unfold PointMass.update. now rewrite Hp. Qed.
(** A point without connections: [solve_constraints] does nothing. *)
Lemma solve_constraints_torn heap self s :
  heap !! self = Some s -> PointMass.connections s = [] ->
  PointMass.solve_constraints heap self = heap.
Proof.
  intros Hs Hc. unfold PointMass.solve_constraints. now rewrite Hs, Hc.
Qed.

(** A whole relaxation pass, and [Curtain.update], leave every fixed
    point in place. *)
Lemma fold_solve_fixed (order : list ref) : forall heap k p,
  heap !! k = Some p -> PointMass.fixed p = true ->
  fold_left PointMass.solve_constraints order heap !! k = Some p.
Proof.
  induction order as [|i order IH]; intros heap k p Hk Hp; simpl; [exact Hk|].
  apply IH; [|exact Hp]. now apply solve_constraints_fixed.
Qed.

Lemma rounds_fixed {A} (rounds : list A) : forall heap k p,
  heap !! k = Some p -> PointMass.fixed p = true ->
  fold_left (fun pts _ => Curtain.for_points PointMass.solve_constraints pts)
            rounds heap !! k = Some p.
Proof.
  induction rounds as [|z rounds IH]; intros heap k p Hk Hp; simpl; [exact Hk|].
  apply IH; [|exact Hp]. unfold Curtain.for_points. now apply fold_solve_fixed.
Qed.

Lemma curtain_update_fixed dt (c : Curtain.t N) k p :
  Curtain.points c !! k = Some p -> PointMass.fixed p = true ->
  Curtain.points (Curtain.update dt c) !! k = Some p.
Proof.
  intros Hk Hp. unfold Curtain.update. rewrite for_points_call.
  cbn [Curtain.points Curtain.set_points].
  apply rounds_fixed; [|exact Hp].
  rewrite list_lookup_fmap, Hk. simpl. now rewrite update_fixed.
Qed.
End Structure.

(** * Construction of the curtain *)
Section Construction.
Context {N : Type} `{Number N}.
Implicit Types (pts : list (PointMass.t N)).

Lemma getitem_neg len k :
  (0 < k <= Z.of_nat len)%Z -> getitem len (- k) = Some (Z.to_nat (Z.of_nat len - k)).
Proof.
  intros Hk. unfold getitem.
  assert (E1 : (- k <? 0)%Z = true) by (apply Z.ltb_lt; lia). rewrite E1.
  assert (E2 : (0 <=? Z.of_nat len + - k)%Z = true) by (apply Z.leb_le; lia).
  assert (E3 : (Z.of_nat len + - k <? Z.of_nat len)%Z = true) by (apply Z.ltb_lt; lia).
  rewrite E2, E3. reflexivity.
Qed.

Lemma attach_to_last pts (p : PointMass.t N) other rd st :
  PointMass.attach_to (pts ++ [p]) (length pts) other rd st
  = pts ++ [PointMass.set_connections p (PointMass.connections p ++ [(other, rd, st)])].
Proof.
  unfold PointMass.attach_to. rewrite list_lookup_middle by reflexivity.
  rewrite insert_app_r_alt by lia. now rewrite Nat.sub_diag.
Qed.

(** One iteration of the inner loop appends the point of the layout: the
    two negative indices denote existing points, the left neighbour and
    the point above. *)
Lemma create_point_layout width rd start_y y x pts :
  (0 <= y)%Z -> (0 <= x <= width)%Z ->
  length pts = index width y x ->
  Curtain.create_point width rd start_y y x pts
  = Some (pts ++ [grid_point width start_y rd y x]).
Proof.
  intros Hy Hx Hlen. unfold Curtain.create_point, index in *.
  assert (Hn : Z.of_nat (length pts) = (y * (width + 1) + x)%Z) by nia.
  set (p0 := PointMass.init _ _ _).
  assert (Hlen1 : forall q : PointMass.t N,
            Z.of_nat (length (pts ++ [q])) = (y * (width + 1) + x + 1)%Z).
  { intros q. rewrite length_app. simpl. lia. }
  destruct (0 <? x)%Z eqn:Ex.
  - pose proof (proj1 (Z.ltb_lt _ _) Ex) as Hx0.
    rewrite (getitem_neg _ 2) by (rewrite Hlen1; nia).
    rewrite attach_to_last.
    destruct (0 <? y)%Z eqn:Ey.
    + pose proof (proj1 (Z.ltb_lt _ _) Ey) as Hy0.
      rewrite (getitem_neg _ (width + 2)) by (rewrite Hlen1; nia).
      rewrite attach_to_last. rewrite !Hlen1.
      unfold grid_point, index. rewrite Ex, Ey. subst p0. simpl.
      do 7 f_equal; f_equal; lia.
    + unfold grid_point, index. rewrite Ex, Ey, Hlen1. subst p0. simpl.
      do 7 f_equal; lia.
  - destruct (0 <? y)%Z eqn:Ey.
    + pose proof (proj1 (Z.ltb_lt _ _) Ey) as Hy0.
      rewrite (getitem_neg _ (width + 2)) by (rewrite Hlen1; nia).
      rewrite attach_to_last. rewrite Hlen1.
      unfold grid_point, index. rewrite Ex, Ey. subst p0. simpl.
      do 7 f_equal; lia.
    + unfold grid_point. rewrite Ex, Ey. reflexivity.
Qed.
Lemma row_loop_from width rd start_y y k : forall x0 pts,
  (0 <= y)%Z -> (0 <= x0)%Z -> (x0 + Z.of_nat k <= width + 1)%Z ->
  length pts = index width y x0 ->
  for_each (seqZ x0 (Z.of_nat k)) (Curtain.create_point width rd start_y y) pts
  = Some (pts ++ map (grid_point width start_y rd y) (seqZ x0 (Z.of_nat k))).
Proof.
  induction k as [|k IH]; intros x0 pts Hy Hx0 Hk Hlen.
  - simpl. now rewrite app_nil_r.
  - rewrite seqZ_cons by lia.
    replace (Z.pred (Z.of_nat (S k))) with (Z.of_nat k) by lia.
    simpl. rewrite create_point_layout by (auto; lia).
    rewrite IH; try lia.
    + now rewrite <- app_assoc.
    + rewrite length_app, Hlen. unfold index. simpl. nia.
Qed.

Lemma row_loop width rd start_y y pts :
  (0 <= y)%Z -> length pts = (Z.to_nat y * Z.to_nat (width + 1))%nat ->
  for_each (range (width + 1)) (Curtain.create_point width rd start_y y) pts
  = Some (pts ++ grid_row width start_y rd y).
Proof.
  intros Hy Hlen. unfold grid_row, range.
  destruct (Z_le_gt_dec (width + 1) 0) as [Hw|Hw].
  - unfold seqZ. replace (Z.to_nat (width + 1)) with 0%nat by lia.
    simpl. now rewrite app_nil_r.
  - rewrite <- (Z2Nat.id (width + 1)) at 1 2 by lia.
    apply row_loop_from; try lia.
    rewrite Hlen. unfold index. nia.
Qed.

Lemma grid_row_length width start_y rd y :
  length (grid_row width start_y rd y) = Z.to_nat (width + 1).
Proof. unfold grid_row, range. now rewrite length_map, length_seqZ. Qed.

Lemma rows_loop_from width rd start_y k : forall y0 pts,
  (0 <= y0)%Z -> length pts = (Z.to_nat y0 * Z.to_nat (width + 1))%nat ->
  for_each (seqZ y0 (Z.of_nat k))
    (fun y => for_each (range (width + 1)) (Curtain.create_point width rd start_y y))
    pts
  = Some (pts ++ concat (map (grid_row width start_y rd) (seqZ y0 (Z.of_nat k)))).
Proof.
  induction k as [|k IH]; intros y0 pts Hy0 Hlen.
  - simpl. now rewrite app_nil_r.
  - rewrite seqZ_cons by lia.
    replace (Z.pred (Z.of_nat (S k))) with (Z.of_nat k) by lia.
    simpl. rewrite row_loop by assumption.
    rewrite IH; try lia.
    + now rewrite <- app_assoc.
    + rewrite length_app, grid_row_length, Hlen. nia.
Qed.

(** The construction never raises, whatever its arguments, and builds the
    points of the layout. *)
Lemma init_layout width height (start_y rd : N) :
  Curtain.init width height start_y rd
  = Some (Curtain.mk (grid_points width height start_y rd) width height rd).
Proof.
  unfold Curtain.init, Curtain.create_points, grid_points, range. simpl.
  destruct (Z_le_gt_dec (height + 1) 0) as [Hh|Hh].
  - unfold seqZ. replace (Z.to_nat (height + 1)) with 0%nat by lia. reflexivity.
  - rewrite <- (Z2Nat.id (height + 1)) by lia.
    fold (range (width + 1)).
    rewrite (rows_loop_from width rd start_y _ 0 []) by (simpl; lia).
    reflexivity.
Qed.

(** Rows of equal length laid end to end. *)
Lemma lookup_concat_rows {A} (len : nat) (rows : list (list A)) :
  Forall (fun l => length l = len) rows ->
  forall r c l, rows !! r = Some l -> (c < len)%nat ->
  concat rows !! (r * len + c)%nat = l !! c.
Proof.
  induction 1 as [|l0 rows Hl0 _ IH]; intros r c l Hr Hc.
  - discriminate.
  - destruct r as [|r]; simpl in *.
    + inversion Hr; subst. apply lookup_app_l. lia.
    + rewrite lookup_app_r by lia.
      replace (len + r * len + c - length l0)%nat with (r * len + c)%nat by lia.
      now apply IH.
Qed.

Lemma concat_rows_length {A} (len : nat) (rows : list (list A)) :
  Forall (fun l => length l = len) rows ->
  length (concat rows) = (length rows * len)%nat.
Proof.
  induction 1 as [|l0 rows Hl0 _ IH]; simpl; [reflexivity|].
  rewrite length_app, IH, Hl0. reflexivity.
Qed.

Lemma grid_rows_length width (start_y rd : N) (ys : list Z) :
  Forall (fun l => length l = Z.to_nat (width + 1))
         (map (grid_row width start_y rd) ys).
Proof.
  induction ys as [|y ys IH]; simpl; constructor;
    [apply grid_row_length | exact IH].
Qed.

Lemma grid_points_length width height (start_y rd : N) :
  length (grid_points width height start_y rd)
  = (Z.to_nat (height + 1) * Z.to_nat (width + 1))%nat.
Proof.
  unfold grid_points.
  rewrite (concat_rows_length _ _ (grid_rows_length _ _ _ _)).
  unfold range. now rewrite length_map, length_seqZ.
Qed.

Lemma grid_points_lookup width height (start_y rd : N) row col :
  (0 <= row <= height)%Z -> (0 <= col <= width)%Z ->
  grid_points width height start_y rd !! index width row col
  = Some (grid_point width start_y rd row col).
Proof.
  intros Hrow Hcol. unfold grid_points, index.
  replace (Z.to_nat (row * (width + 1) + col))
    with (Z.to_nat row * Z.to_nat (width + 1) + Z.to_nat col)%nat by nia.
  rewrite (lookup_concat_rows (Z.to_nat (width + 1)) _
             (grid_rows_length _ _ _ _) _ _ (grid_row width start_y rd row)).
  - unfold grid_row, range. rewrite list_lookup_fmap.
    rewrite lookup_seqZ_lt by lia. simpl. do 2 f_equal. lia.
  - unfold range. rewrite list_lookup_fmap. rewrite lookup_seqZ_lt by lia.
    simpl. do 2 f_equal. lia.
  - lia.
Qed.
End Construction.

(** * The claims that hold for every arithmetic *)

(** C1. A fixed point is left as it is by [update] and by
    [solve_constraints], whichever point the latter is called on: in
    particular its position (x, y) is the one before the call. *)
Theorem fixed_point_invariance {N : Type} `{Number N} (dt : N)
    (heap : list (PointMass.t N)) (self k : ref) (p : PointMass.t N) :
  heap !! k = Some p -> PointMass.fixed p = true ->
  PointMass.update dt p = p /\
  PointMass.solve_constraints heap self !! k = Some p.
Proof.
  intros Hk Hp. split.
  - now apply update_fixed.
  - now apply solve_constraints_fixed.
Qed.

Lemma fixed_point_invariance_witness :
  PointMass.update (decimal 1 1) pin = pin /\
  PointMass.solve_constraints pendulum 1 !! 0%nat = Some pin.
Proof.
  apply (fixed_point_invariance (decimal 1 1) pendulum 1%nat 0%nat pin);
    reflexivity.
Defined.

(** C3. [solve_constraints] takes the outgoing connections of [self] in
    order, each one on the store left by the ones before it.  For one
    connection [(other, resting_distance, stiffness)] to another point:
    if the distance is [== 0] the store is left as it is; otherwise, with
    [error = (resting_distance - distance) / distance] and
    [correction = error * 0.5 * stiffness], [self] is written with
    [x - correction * dx] and [y - correction * dy] unless it is fixed, and
    [other] with [x + correction * dx] and [y + correction * dy] unless it
    is fixed; nothing else of the two points changes. *)
Theorem solve_constraints_spec {N : Type} `{Number N} :
  (forall (heap : list (PointMass.t N)) (self other : ref) (rd st : N)
          (s o : PointMass.t N),
      heap !! self = Some s -> heap !! other = Some o -> self <> other ->
      let dx := sub (PointMass.x o) (PointMass.x s) in
      let dy := sub (PointMass.y o) (PointMass.y s) in
      let distance := sqrt (add (pow2 dx) (pow2 dy)) in
      let error := div (sub rd distance) distance in
      let correction := mul (mul error (decimal 5 1)) st in
      let s' := if PointMass.fixed s then s else
        PointMass.mk (sub (PointMass.x s) (mul correction dx))
                     (sub (PointMass.y s) (mul correction dy))
                     (PointMass.prev_x s) (PointMass.prev_y s)
                     (PointMass.fixed s) (PointMass.connections s) in
      let o' := if PointMass.fixed o then o else
        PointMass.mk (add (PointMass.x o) (mul correction dx))
                     (add (PointMass.y o) (mul correction dy))
                     (PointMass.prev_x o) (PointMass.prev_y o)
                     (PointMass.fixed o) (PointMass.connections o) in
      PointMass.solve_connection self heap (other, rd, st)
      = if eqb distance (of_int 0) then heap
        else <[other := o']> (<[self := s']> heap))
  /\
  (forall (heap : list (PointMass.t N)) (self : ref) (s : PointMass.t N)
          (before after : list (ref * N * N)) (c : ref * N * N),
      heap !! self = Some s ->
      PointMass.connections s = before ++ c :: after ->
      PointMass.solve_constraints heap self
      = fold_left (PointMass.solve_connection self) after
          (PointMass.solve_connection self
             (fold_left (PointMass.solve_connection self) before heap) c)).
Proof.
  split.
  - intros heap self other rd st s o Hs Ho Hne. cbv zeta.
    rewrite (solve_connection_apart heap self other rd st s o Hs Ho Hne).
    reflexivity.
  - intros heap self s before after c Hs Hc.
    unfold PointMass.solve_constraints. rewrite Hs, Hc.
    now rewrite fold_left_app.
Qed.

Lemma solve_constraints_spec_witness :
  PointMass.solve_connection 1 pendulum (0%nat, of_int 10, STIFFNESS)
  = [pin;
     PointMass.mk (decimal 375 2) (of_int 5) (of_int 3) (of_int 4) false
                  [(0%nat, of_int 10, STIFFNESS)]]
  /\
  PointMass.solve_constraints pendulum 1
  = [pin;
     PointMass.mk (decimal 375 2) (of_int 5) (of_int 3) (of_int 4) false
                  [(0%nat, of_int 10, STIFFNESS)]].
Proof.
  split.
  - rewrite (proj1 solve_constraints_spec pendulum 1%nat 0%nat
               (of_int 10) STIFFNESS bob pin); [|reflexivity|reflexivity|lia].
    vm_compute. reflexivity.
  - rewrite (proj2 solve_constraints_spec pendulum 1%nat bob [] []
               (0%nat, of_int 10, STIFFNESS)); [|reflexivity|reflexivity].
    cbn [fold_left].
    rewrite (proj1 solve_constraints_spec pendulum 1%nat 0%nat
               (of_int 10) STIFFNESS bob pin); [|reflexivity|reflexivity|lia].
    vm_compute. reflexivity.
Defined.

(** C4. For a grid of [width] by [height] cells the construction returns
    [(width+1)*(height+1)] points in row-major order; the point at column
    [col] of row [row] is at rest at [(col * resting_distance,
    start_y + row * resting_distance)], is fixed exactly when [row = 0],
    and its connections are: one to the left neighbour when [col > 0],
    then one to the point above when [row > 0], both with
    [resting_distance] and [STIFFNESS]. *)
Theorem create_points_grid {N : Type} `{Number N} (width height : Z)
    (start_y resting_distance : N) :
  (0 <= width)%Z -> (0 <= height)%Z ->
  exists c : Curtain.t N,
    Curtain.init width height start_y resting_distance = Some c /\
    length (Curtain.points c) = Z.to_nat ((width + 1) * (height + 1)) /\
    forall row col : Z, (0 <= row <= height)%Z -> (0 <= col <= width)%Z ->
      Curtain.points c !! Z.to_nat (row * (width + 1) + col)
      = Some (PointMass.mk
                (mul (of_int col) resting_distance)
                (add start_y (mul (of_int row) resting_distance))
                (mul (of_int col) resting_distance)
                (add start_y (mul (of_int row) resting_distance))
                (row =? 0)%Z
                ((if (0 <? col)%Z
                  then [(Z.to_nat (row * (width + 1) + (col - 1)),
                         resting_distance, STIFFNESS)]
                  else [])
                 ++
                 (if (0 <? row)%Z
                  then [(Z.to_nat ((row - 1) * (width + 1) + col),
                         resting_distance, STIFFNESS)]
                  else []))).
Proof.
  intros Hw Hh. eexists. split; [apply init_layout|]. simpl. split.
  - rewrite grid_points_length. nia.
  - intros row col Hrow Hcol.
    apply (grid_points_lookup width height start_y resting_distance row col Hrow Hcol).
Qed.

Lemma create_points_grid_witness :
  exists c : Curtain.t float,
    Curtain.init 2 2 (of_int 0) (of_int 10) = Some c /\
    length (Curtain.points c) = 9%nat /\
    Curtain.points c !! 4%nat
    = Some (PointMass.mk (of_int 10) (of_int 10) (of_int 10) (of_int 10) false
              [(3%nat, of_int 10, STIFFNESS); (1%nat, of_int 10, STIFFNESS)]).
Proof.
  destruct (create_points_grid (N := float) 2 2 (of_int 0) (of_int 10))
    as [c [Hc [Hlen Hpt]]]; [lia | lia |].
  exists c. split; [exact Hc|]. split; [exact Hlen|].
  exact (Hpt 1%Z 1%Z ltac:(lia) ltac:(lia)).
Defined.

(** C5. [Curtain.update] first integrates every point once, then makes
    5 relaxation passes; a pass calls [solve_constraints] on every point
    in the order of the list, each call on the store left by the one
    before. *)
Theorem update_pipeline {N : Type} `{Number N} (dt : N) (c : Curtain.t N) :
  let pass := fun pts : list (PointMass.t N) =>
    fold_left PointMass.solve_constraints (seq 0 (length pts)) pts in
  Curtain.points (Curtain.update dt c)
  = pass (pass (pass (pass (pass
      (map (PointMass.update dt) (Curtain.points c)))))).
Proof.
  unfold Curtain.update. rewrite for_points_call. reflexivity.
Qed.

(** C7. [interact_with_mouse] treats every point on its own.  With the
    squared distance of the point to the pointer: if the left button is
    down and it is [< MOUSE_INFLUENCE_SIZE ** 2], a point that is not
    fixed is put at the pointer; if the right button is down and it is
    [< MOUSE_TEAR_SIZE ** 2], the connections of the point are emptied,
    fixed or not.  Both tests use the distance before the drag, so a point
    within both radii with both buttons down is moved and torn. *)
Theorem interact_with_mouse_spec {N : Type} `{Number N} (mouse_pos : N * N)
    (left_click right_click : bool) (c : Curtain.t N) :
  Curtain.points (Curtain.interact_with_mouse mouse_pos left_click right_click c)
  = map (Curtain.interact_point mouse_pos left_click right_click) (Curtain.points c)
  /\
  forall p : PointMass.t N,
    let distance := add (pow2 (sub (PointMass.x p) (fst mouse_pos)))
                        (pow2 (sub (PointMass.y p) (snd mouse_pos))) in
    let drag := left_click && ltb distance (of_int (20 ^ 2)) in
    let tear := right_click && ltb distance (of_int (8 ^ 2)) in
    Curtain.interact_point mouse_pos left_click right_click p
    = PointMass.mk
        (if drag && negb (PointMass.fixed p) then fst mouse_pos else PointMass.x p)
        (if drag && negb (PointMass.fixed p) then snd mouse_pos else PointMass.y p)
        (PointMass.prev_x p) (PointMass.prev_y p) (PointMass.fixed p)
        (if tear then [] else PointMass.connections p).
Proof.
  split.
  - unfold Curtain.interact_with_mouse. simpl. apply for_points_call.
  - intros p. cbv zeta. unfold Curtain.interact_point.
    change (MOUSE_INFLUENCE_SIZE ^ 2)%Z with (20 ^ 2)%Z.
    change (MOUSE_TEAR_SIZE ^ 2)%Z with (8 ^ 2)%Z.
    destruct p as [px py ppx ppy pf pc]. simpl.
    destruct (left_click && ltb _ (of_int (20 ^ 2))), pf,
             (right_click && ltb _ (of_int (8 ^ 2))); reflexivity.
Qed.

(** C8, as the code has it.  The construction checks nothing: whatever the
    dimensions, the offset and the resting distance, it returns a curtain,
    with the points of the layout: none when a dimension is negative. *)
Theorem init_never_fails {N : Type} `{Number N} (width height : Z)
    (start_y resting_distance : N) :
  Curtain.init width height start_y resting_distance
  = Some (Curtain.mk (grid_points width height start_y resting_distance)
                     width height resting_distance)
  /\
  length (grid_points width height start_y resting_distance)
  = (Z.to_nat (height + 1) * Z.to_nat (width + 1))%nat.
Proof.
  split; [apply init_layout | apply grid_points_length].
Qed.

(** * Exact arithmetic *)
Section Reals.
Open Scope R_scope.
Implicit Types (p q s o : PointMass.t R) (heap : list (PointMass.t R)).


Lemma ltb_R_false (a b : R) : ltb a b = false <-> b <= a.
Proof.
  unfold ltb; simpl. destruct (Rlt_dec a b); split; intros; try easy; lra.
Qed.

Lemma eqb_R_false (a b : R) : a <> b -> eqb a b = false.
Proof.
  intros Hab. unfold eqb; simpl. destruct (Req_dec_T a b); [contradiction|reflexivity].
Qed.

Lemma eqb_R_true (a : R) : eqb a a = true.
Proof.
  unfold eqb; simpl. destruct (Req_dec_T a a); [reflexivity|contradiction].
Qed.

Lemma half_R : decimal (N := R) 5 1 = 0.5.
Proof.
  unfold decimal. change (10 ^ Z.of_nat 1)%Z with 10%Z.
  cbn [div of_int R_Number]. lra.
Qed.

Lemma GRAVITY_R : GRAVITY (N := R) = 9.8.
Proof.
  unfold GRAVITY, decimal. change (10 ^ Z.of_nat 1)%Z with 10%Z.
  cbn [div of_int R_Number]. lra.
Qed.

Lemma STIFFNESS_R : STIFFNESS (N := R) = 0.5.
Proof. apply half_R. Qed.

(** Python's [max(0, min(hi, v))] clamps into [[0, hi]]. *)
Lemma py_clamp (hi v : R) :
  0 <= hi -> py_max (of_int 0) (py_min hi v) = clamp 0 hi v.
Proof.
  intros Hhi. unfold py_max, py_min, clamp. simpl.
  repeat (destruct (Rlt_dec _ _)); try reflexivity; lra.
Qed.
(** C2, as the code has it.  [update] on a point that is not fixed, in
    every arithmetic: the velocity is the position minus the previous
    position, the previous position becomes the old position, and the
    position advances by the velocity plus [(0, GRAVITY * dt * dt)].  In
    exact arithmetic, from rest and with [dt = 0.1], x stays and y grows
    by 0.098. *)
Theorem integrate_spec :
  (forall (N : Type) (HN : Number N) (dt : N) (p : PointMass.t N),
      PointMass.fixed p = false ->
      let velocity_x := sub (PointMass.x p) (PointMass.prev_x p) in
      let velocity_y := sub (PointMass.y p) (PointMass.prev_y p) in
      PointMass.update dt p
      = PointMass.mk
          (add (PointMass.x p) velocity_x)
          (add (PointMass.y p) (add velocity_y (mul (mul GRAVITY dt) dt)))
          (PointMass.x p) (PointMass.y p)
          false (PointMass.connections p))
  /\
  GRAVITY (N := R) = 9.8
  /\
  (forall p : PointMass.t R,
      PointMass.fixed p = false ->
      PointMass.prev_x p = PointMass.x p -> PointMass.prev_y p = PointMass.y p ->
      PointMass.x (PointMass.update 0.1 p) = PointMass.x p /\
      PointMass.y (PointMass.update 0.1 p) = PointMass.y p + 0.098).
Proof.
  split; [|split].
  - intros N HN dt p Hp. cbv zeta. now apply update_free.
  - apply GRAVITY_R.
  - intros p Hp Hx Hy. rewrite (update_free 0.1 p Hp), GRAVITY_R.
    cbn [PointMass.x PointMass.y add sub mul R_Number].
    rewrite Hx, Hy. split; lra.
Qed.

Lemma integrate_spec_witness :
  PointMass.update (decimal 1 1) loose
  = PointMass.mk (of_int 7) (decimal 7098 3) (of_int 7) (of_int 7) false []
  /\
  PointMass.x (PointMass.update 0.1 bobR) = 3 /\
  PointMass.y (PointMass.update 0.1 bobR) = 4.098.
Proof.
  destruct integrate_spec as (Hany & _ & Hexact). split.
  - rewrite (Hany float _ (decimal 1 1) loose eq_refl). vm_compute. reflexivity.
  - destruct (Hexact bobR eq_refl eq_refl eq_refl) as [Hx Hy].
    split; [rewrite Hx | rewrite Hy]; simpl; lra.
Defined.

(** C2 fails on the code as it was stated: in binary64 a point at rest at
    the origin is, after [update] with [dt = 0.1], at
    y = 0.09800000000000002, which is not the number 0.098 of the program
    (the binary64 number nearest to 0.098). *)
Lemma integrate_rounds_in_binary64 :
  PointMass.x (PointMass.update (decimal 1 1) origin) = of_int 0 /\
  PointMass.y (PointMass.update (decimal 1 1) origin) = 0x1.916872b020c4bp-4%float /\
  decimal (N := float) 98 3 = 0x1.916872b020c4ap-4%float /\
  PointMass.y (PointMass.update (decimal 1 1) origin) <> decimal 98 3.
Proof.
  assert (Hy : PointMass.y (PointMass.update (decimal 1 1) origin)
               = 0x1.916872b020c4bp-4%float) by (vm_compute; reflexivity).
  assert (Hd : decimal (N := float) 98 3 = 0x1.916872b020c4ap-4%float)
    by (vm_compute; reflexivity).
  split; [vm_compute; reflexivity|]. split; [exact Hy|]. split; [exact Hd|].
  rewrite Hy, Hd. intros E.
  assert (Hb : PrimFloat.eqb 0x1.916872b020c4bp-4 0x1.916872b020c4ap-4 = true)
    by (rewrite E; vm_compute; reflexivity).
  vm_compute in Hb. discriminate Hb.
Qed.

(** C6. [apply_constraint] clamps x into [[0, width]] and y into
    [[0, height]] whether the point is fixed or not, and
    [Curtain.apply_constraints] does so for every point. *)
Theorem apply_constraint_spec (width height : R) (c : Curtain.t R) :
  0 <= width -> 0 <= height ->
  Curtain.points (Curtain.apply_constraints width height c)
  = map (PointMass.apply_constraint width height) (Curtain.points c)
  /\
  forall p : PointMass.t R,
    PointMass.apply_constraint width height p
    = PointMass.mk (clamp 0 width (PointMass.x p)) (clamp 0 height (PointMass.y p))
                   (PointMass.prev_x p) (PointMass.prev_y p)
                   (PointMass.fixed p) (PointMass.connections p).
Proof.
  intros Hw Hh. split.
  - unfold Curtain.apply_constraints. simpl. apply for_points_call.
  - intros p. unfold PointMass.apply_constraint.
    now rewrite !py_clamp by assumption.
Qed.

Lemma apply_constraint_spec_witness :
  PointMass.apply_constraint 640 480 strayR
  = PointMass.mk 0 480 (-5) 700 true [].
Proof.
  rewrite (proj2 (apply_constraint_spec 640 480 (Curtain.mk [] 0 0 10)
                    ltac:(lra) ltac:(lra)) strayR).
  unfold clamp, strayR. simpl.
  repeat (destruct (Rlt_dec _ _)); try lra; reflexivity.
Defined.


(** Zero-distance stability: a link between two points at the same
    position, and a link of a point to itself, change nothing. *)
Lemma solve_connection_coincident heap self other (rd st : R) s o :
  heap !! self = Some s -> heap !! other = Some o ->
  PointMass.x o = PointMass.x s -> PointMass.y o = PointMass.y s ->
  PointMass.solve_connection self heap (other, rd, st) = heap.
Proof.
  intros Hs Ho Hx Hy. unfold PointMass.solve_connection.
  rewrite Hs, Ho, Hx, Hy. unfold pow2.
  cbn [add sub mul sqrt of_int R_Number].
  replace ((PointMass.x s - PointMass.x s) * (PointMass.x s - PointMass.x s)
           + (PointMass.y s - PointMass.y s) * (PointMass.y s - PointMass.y s))
    with 0 by ring.
  now rewrite sqrt_0, eqb_R_true.
Qed.

Lemma solve_connection_self heap self (rd st : R) s :
  heap !! self = Some s ->
  PointMass.solve_connection self heap (self, rd, st) = heap.
Proof.
  intros Hs. now apply (solve_connection_coincident heap self self rd st s s).
Qed.

(** Clamping twice is clamping once. *)
Lemma apply_constraint_idempotent (width height : R) p :
  PointMass.apply_constraint width height (PointMass.apply_constraint width height p)
  = PointMass.apply_constraint width height p.
Proof.
  unfold PointMass.apply_constraint, py_max, py_min. simpl.
  f_equal; repeat (destruct (Rlt_dec _ _)); try reflexivity; lra.
Qed.

(** ** One link between two free points *)

Lemma sqrt_scale (k a b : R) :
  0 <= k ->
  R_sqrt.sqrt ((k * a) * (k * a) + (k * b) * (k * b))
  = k * R_sqrt.sqrt (a * a + b * b).
Proof.
  intros Hk.
  replace ((k * a) * (k * a) + (k * b) * (k * b))
    with ((k * k) * (a * a + b * b)) by ring.
  rewrite sqrt_mult; [| nra | nra].
  now rewrite sqrt_square.
Qed.

Lemma distance_nonneg p q : 0 <= distance p q.
Proof. unfold distance. apply sqrt_pos. Qed.

Lemma pass_contracts heap a b r st d :
  a <> b -> 0 < st <= 1 -> 0 < r -> linked heap a b r st d ->
  linked (PointMass.solve_constraints heap a) a b r st (d + st * (r - d)).
Proof.
  intros Hab Hst Hr (s & o & Hs & Ho & Fs & Fo & Hc & Hd & Hpos).
  unfold PointMass.solve_constraints. rewrite Hs, Hc. cbn [fold_left].
  rewrite (solve_connection_apart heap a b r st s o Hs Ho Hab).
  rewrite Fs, Fo, half_R. replace 0.5 with (1 / 2) by lra.
  change (sqrt (add (pow2 (sub (PointMass.x o) (PointMass.x s)))
                    (pow2 (sub (PointMass.y o) (PointMass.y s)))))
    with (distance s o).
  rewrite Hd. change (of_int 0) with 0.
  rewrite eqb_R_false by lra.
  cbn [add sub mul div R_Number].
  set (dx := PointMass.x o - PointMass.x s) in *.
  set (dy := PointMass.y o - PointMass.y s) in *.
  set (c := (r - d) / d * (1 / 2) * st).
  assert (Ha : (a < length heap)%nat) by (eapply lookup_lt_Some; eauto).
  assert (Hb : (b < length heap)%nat) by (eapply lookup_lt_Some; eauto).
  eexists _, _. split; [|split].
  - rewrite list_lookup_insert_ne by auto.
    apply list_lookup_insert_eq. exact Ha.
  - apply list_lookup_insert_eq. now rewrite length_insert.
  - cbn [PointMass.fixed PointMass.connections PointMass.set_pos].
    repeat split; try assumption.
    + unfold distance.
      cbn [PointMass.x PointMass.y PointMass.set_pos].
      fold dx dy.
      assert (Hk : 0 < 1 + 2 * c).
      { unfold c. replace (1 + 2 * ((r - d) / d * (1 / 2) * st))
          with ((d + st * (r - d)) / d) by (field; lra).
        apply Rdiv_lt_0_compat; nra. }
      replace (PointMass.x o + c * dx - (PointMass.x s - c * dx))
        with ((1 + 2 * c) * dx) by (unfold dx; ring).
      replace (PointMass.y o + c * dy - (PointMass.y s - c * dy))
        with ((1 + 2 * c) * dy) by (unfold dy; ring).
      rewrite sqrt_scale by lra.
      change (R_sqrt.sqrt (dx * dx + dy * dy)) with (distance s o).
      rewrite Hd. unfold c. field. lra.
    + nra.
Qed.
Lemma passes_linked heap a b r st d n :
  a <> b -> 0 < st <= 1 -> 0 < r -> linked heap a b r st d ->
  exists dn, linked (passes n heap a) a b r st dn /\ dn - r = (1 - st) ^ n * (d - r).
Proof.
  intros Hab Hst Hr Hl. induction n as [|n (dn & Hn & En)].
  - exists d. split; [exact Hl | simpl; lra].
  - exists (dn + st * (r - dn)). split.
    + apply pass_contracts; assumption.
    + simpl. replace (dn + st * (r - dn) - r) with ((1 - st) * (dn - r)) by ring.
      rewrite En. ring.
Qed.

Lemma linked_distance heap a b r st d :
  linked heap a b r st d -> distance_between heap a b = d.
Proof.
  intros (s & o & Hs & Ho & _ & _ & _ & Hd & _).
  unfold distance_between. now rewrite Hs, Ho.
Qed.

Lemma passes_error heap a b r st d n :
  a <> b -> 0 < st <= 1 -> 0 < r -> linked heap a b r st d ->
  Rabs (distance_between (passes n heap a) a b - r) = (1 - st) ^ n * Rabs (d - r).
Proof.
  intros Hab Hst Hr Hl.
  destruct (passes_linked heap a b r st d n Hab Hst Hr Hl) as (dn & Hn & En).
  rewrite (linked_distance _ _ _ _ _ _ Hn), En, Rabs_mult.
  f_equal. apply Rabs_pos_eq. apply pow_le. lra.
Qed.

(** C9, as the code has it: in exact arithmetic.  One link of stiffness
    in (0, 1] and resting distance [r > 0] between two free points that do
    not coincide and are not at the resting distance.  Every pass
    multiplies [|distance - r|] by [1 - stiffness]: it never grows, it
    shrinks as long as it is not 0, the first pass shrinks it, and it comes
    below any tolerance. *)
Theorem relaxation_converges (heap : list (PointMass.t R)) (a b : ref)
    (s o : PointMass.t R) (r st : R) :
  a <> b -> heap !! a = Some s -> heap !! b = Some o ->
  PointMass.fixed s = false -> PointMass.fixed o = false ->
  PointMass.connections s = [(b, r, st)] ->
  0 < st <= 1 -> 0 < r ->
  distance s o <> 0 -> distance s o <> r ->
  let err := fun n => Rabs (distance_between (passes n heap a) a b - r) in
  (forall n, err (S n) = (1 - st) * err n) /\
  (forall n, err (S n) <= err n) /\
  (forall n, err n <> 0 -> err (S n) < err n) /\
  err 1%nat < err 0%nat /\
  (forall tol, 0 < tol -> exists m, forall n, (m <= n)%nat -> err n < tol).
Proof.
  intros Hab Hs Ho Fs Fo Hc Hst Hr Hd0 Hdr. cbv zeta.
  assert (Hl : linked heap a b r st (distance s o)).
  { exists s, o. repeat split; try assumption.
    pose proof (distance_nonneg s o). lra. }
  assert (E : forall n, Rabs (distance_between (passes n heap a) a b - r)
                        = (1 - st) ^ n * Rabs (distance s o - r)).
  { intros n. now apply passes_error. }
  assert (Hstep : forall n,
            Rabs (distance_between (passes (S n) heap a) a b - r)
            = (1 - st) * Rabs (distance_between (passes n heap a) a b - r)).
  { intros n. rewrite !E. simpl. ring. }
  assert (Hpos : forall n, 0 <= Rabs (distance_between (passes n heap a) a b - r)).
  { intros n. apply Rabs_pos. }
  assert (He0 : 0 < Rabs (distance s o - r)).
  { apply Rabs_pos_lt. lra. }
  split; [exact Hstep|]. split; [|split; [|split]].
  - intros n. rewrite Hstep. specialize (Hpos n). nra.
  - intros n Hn. rewrite Hstep. specialize (Hpos n). nra.
  - rewrite Hstep. specialize (Hpos 0%nat). rewrite (E 0%nat) in *. simpl in *. nra.
  - intros tol Htol.
    destruct (pow_lt_1_zero (1 - st)) with (y := tol / Rabs (distance s o - r))
      as [m Hm].
    + rewrite Rabs_pos_eq; lra.
    + apply Rdiv_lt_0_compat; assumption.
    + exists m. intros n Hn. rewrite E.
      specialize (Hm n ltac:(lia)).
      rewrite Rabs_pos_eq in Hm by (apply pow_le; lra).
      apply (Rmult_lt_compat_r (Rabs (distance s o - r))) in Hm; [|exact He0].
      replace (tol / Rabs (distance s o - r) * Rabs (distance s o - r))
        with tol in Hm by (field; lra).
      exact Hm.
Qed.
Lemma pair_distance :
  distance (PointMass.mk 0 0 0 0 false [(1%nat, 10, STIFFNESS)])
           (PointMass.mk 3 4 3 4 false []) = 5.
Proof.
  unfold distance. simpl.
  replace ((3 - 0) * (3 - 0) + (4 - 0) * (4 - 0)) with (5 * 5) by lra.
  apply sqrt_square. lra.
Qed.

Lemma relaxation_converges_witness :
  Rabs (distance_between (passes 1 pair 0) 0 1 - 10)
  < Rabs (distance_between (passes 0 pair 0) 0 1 - 10).
Proof.
  refine (proj1 (proj2 (proj2 (proj2
    (relaxation_converges pair 0%nat 1%nat _ _ 10 STIFFNESS _
       eq_refl eq_refl eq_refl eq_refl eq_refl _ _ _ _))))).
  - lia.
  - rewrite STIFFNESS_R. lra.
  - lra.
  - rewrite pair_distance. lra.
  - rewrite pair_distance. lra.
Defined.
End Reals.

(** * Runs in binary64 *)

(** C8 fails on the code: a resting distance of 0 is accepted and puts the
    four points of a 1 by 1 grid on one spot; a 0 by 0 grid is accepted and
    is a single point; negative dimensions are accepted and give no point
    at all. *)
Lemma init_accepts_misconfiguration :
  Curtain.init (N := float) 1 1 (of_int 50) (of_int 0)
  = Some (Curtain.mk
            [PointMass.mk (of_int 0) (of_int 50) (of_int 0) (of_int 50) true [];
             PointMass.mk (of_int 0) (of_int 50) (of_int 0) (of_int 50) true
               [(0%nat, of_int 0, STIFFNESS)];
             PointMass.mk (of_int 0) (of_int 50) (of_int 0) (of_int 50) false
               [(0%nat, of_int 0, STIFFNESS)];
             PointMass.mk (of_int 0) (of_int 50) (of_int 0) (of_int 50) false
               [(2%nat, of_int 0, STIFFNESS); (1%nat, of_int 0, STIFFNESS)]]
            1 1 (of_int 0))
  /\
  Curtain.init (N := float) 0 0 (of_int 50) (of_int 10)
  = Some (Curtain.mk
            [PointMass.mk (of_int 0) (of_int 50) (of_int 0) (of_int 50) true []]
            0 0 (of_int 10))
  /\
  Curtain.init (N := float) (-3) (-2) (of_int 50) (of_int 10)
  = Some (Curtain.mk [] (-3) (-2) (of_int 10)).
Proof. repeat split; vm_compute; reflexivity. Qed.

(** C9 fails on the code as it was stated: in binary64 a pass need not
    shrink [|distance - r|].  The two free points of [far] are 32 apart
    and their link rests at 10; the corrections of 5.5 round away at
    2^57, so the pass moves neither point and the error stays 22. *)
Lemma relaxation_stalls_in_binary64 :
  PointMass.solve_constraints far 0 = far /\
  sqrt (add (pow2 (sub (of_int (2 ^ 57 + 32)) (of_int (2 ^ 57))))
            (pow2 (sub (of_int 0) (of_int 0)))) = (of_int 32 : float) /\
  eqb (of_int 32) (of_int 10 : float) = false /\
  ltb (of_int 0) (STIFFNESS : float) = true /\
  ltb (of_int 1) (STIFFNESS : float) = false.
Proof. repeat split; vm_compute; reflexivity. Qed.

(** The scenario of the specification: a 2 by 2 grid of 9 points with
    resting distance 10 and offset 0; after [update] of every point with
    [dt = 0.1], the points of row 0 are where they were and the others are
    0.098 lower, at the same x. *)
Example scenario_first_integration :
  option_map
    (fun c => map (fun p => (PointMass.x p, PointMass.y p))
                  (map (PointMass.update (decimal 1 1)) (Curtain.points c)))
    (Curtain.init (N := float) 2 2 (of_int 0) (of_int 10))
  = Some [(of_int 0, of_int 0); (of_int 10, of_int 0); (of_int 20, of_int 0);
          (of_int 0, decimal 10098 3); (of_int 10, decimal 10098 3);
          (of_int 20, decimal 10098 3);
          (of_int 0, decimal 20098 3); (of_int 10, decimal 20098 3);
          (of_int 20, decimal 20098 3)].
Proof. vm_compute. reflexivity. Qed.

(** In binary64 the products round: the gravity term of a step of 0.1 is
    not the double nearest to 0.098, although the positions reached in the
    scenario above are the doubles nearest to 10.098 and 20.098. *)
Example gravity_step_binary64 :
  eqb (mul (mul GRAVITY (decimal 1 1)) (decimal 1 1)) (decimal (N := float) 98 3)
  = false.
Proof. vm_compute. reflexivity. Qed.

(** The curtain of [main]: 61 columns by 41 rows. *)
Example main_curtain_size :
  exists c : Curtain.t float,
    Curtain.init CURTAIN_WIDTH CURTAIN_HEIGHT (of_int START_Y) (of_int RESTING_DISTANCE)
    = Some c /\
    length (Curtain.points c) = 2501%nat.
Proof.
  eexists. split; [apply init_layout|].
  cbn [Curtain.points]. rewrite grid_points_length. reflexivity.
Qed.

(** * What the operations leave alone *)
Section Footprint.
Context {N : Type} `{Number N}.
Implicit Types (heap pts : list (PointMass.t N)) (p q s o : PointMass.t N).
Implicit Types (self other i j k : nat) (c : Curtain.t N).

Lemma same_but_pos_refl p : same_but_pos p p.
Proof. now repeat split. Qed.

Lemma same_but_pos_trans p q s :
  same_but_pos p q -> same_but_pos q s -> same_but_pos p s.
Proof.
  intros (A1 & A2 & A3 & A4) (B1 & B2 & B3 & B4).
  repeat split; congruence.
Qed.

Lemma same_or_torn_refl p : same_or_torn p p.
Proof. split; [reflexivity | now left]. Qed.

Lemma same_or_torn_trans p q s :
  same_or_torn p q -> same_or_torn q s -> same_or_torn p s.
Proof.
  intros [A1 A2] [B1 B2]. split; [congruence|].
  destruct B2 as [B2|B2]; [|now right].
  destruct A2 as [A2|A2]; [left | right]; congruence.
Qed.

Lemma same_but_pos_weaken p q : same_but_pos p q -> same_or_torn p q.
Proof. intros (_ & _ & A3 & A4). split; [exact A3 | now left]. Qed.

Lemma Forall2_diag (Q : PointMass.t N -> PointMass.t N -> Prop) heap :
  (forall p, Q p p) -> Forall2 Q heap heap.
Proof. intros HQ. induction heap; constructor; auto. Qed.

Lemma Forall2_map_r (Q : PointMass.t N -> PointMass.t N -> Prop)
    (f : PointMass.t N -> PointMass.t N) heap :
  (forall p, Q p (f p)) -> Forall2 Q heap (map f heap).
Proof. intros HQ. induction heap; simpl; constructor; auto. Qed.

(** Moving one point of the store. *)
Lemma move_same heap i q (a b : N) :
  heap !! i = Some q ->
  Forall2 same_but_pos heap (<[i := PointMass.set_pos q a b]> heap).
Proof.
  intros Hi. rewrite <- (list_insert_id heap i q Hi) at 1.
  apply Forall2_insert.
  - apply Forall2_diag, same_but_pos_refl.
  - now repeat split.
Qed.

Lemma solve_connection_same self heap conn :
  Forall2 same_but_pos heap (PointMass.solve_connection self heap conn).
Proof.
  assert (Hrefl : forall h : list (PointMass.t N), Forall2 same_but_pos h h)
    by (intros h; apply Forall2_diag, same_but_pos_refl).
  unfold PointMass.solve_connection. destruct conn as [[other rd] st].
  destruct (heap !! self) as [s|] eqn:Hs; [|apply Hrefl].
  destruct (heap !! other) as [o|] eqn:Ho; [|apply Hrefl].
  destruct (eqb _ _); [apply Hrefl|].
  set (heap1 := if negb (PointMass.fixed s) then _ else heap).
  assert (H1 : Forall2 same_but_pos heap heap1).
  { subst heap1. destruct (negb (PointMass.fixed s)); [|apply Hrefl].
    now apply move_same. }
  destruct (heap1 !! other) as [o1|] eqn:Ho1; [|exact H1].
  destruct (negb (PointMass.fixed o1)); [|exact H1].
  eapply Forall2_trans; [apply same_but_pos_trans | exact H1 |].
  now apply move_same.
Qed.

Lemma solve_connections_same self conns : forall heap,
  Forall2 same_but_pos heap (fold_left (PointMass.solve_connection self) conns heap).
Proof.
  induction conns as [|conn conns IH]; intros heap; simpl.
  - apply Forall2_diag, same_but_pos_refl.
  - eapply Forall2_trans; [apply same_but_pos_trans | | apply IH].
    apply solve_connection_same.
Qed.

Lemma solve_constraints_same heap self :
  Forall2 same_but_pos heap (PointMass.solve_constraints heap self).
Proof.
  unfold PointMass.solve_constraints. destruct (heap !! self).
  - apply solve_connections_same.
  - apply Forall2_diag, same_but_pos_refl.
Qed.

Lemma solve_connection_elsewhere self heap other (rd st : N) k :
  k <> self -> k <> other ->
  PointMass.solve_connection self heap (other, rd, st) !! k = heap !! k.
Proof.
  intros Hself Hother. unfold PointMass.solve_connection.
  destruct (heap !! self) as [s|] eqn:Hs; [|reflexivity].
  destruct (heap !! other) as [o|] eqn:Ho; [|reflexivity].
  destruct (eqb _ _); [reflexivity|].
  set (heap1 := if negb (PointMass.fixed s) then _ else heap).
  assert (H1 : heap1 !! k = heap !! k).
  { subst heap1. destruct (negb (PointMass.fixed s)); [|reflexivity].
    apply list_lookup_insert_ne. auto. }
  destruct (heap1 !! other) as [o1|] eqn:Ho1; [|exact H1].
  destruct (negb (PointMass.fixed o1)); [|exact H1].
  rewrite list_lookup_insert_ne by auto. exact H1.
Qed.

Lemma solve_connections_elsewhere self k (conns : list (nat * N * N)) :
  k <> self -> Forall (fun conn => fst (fst conn) <> k) conns ->
  forall heap,
    fold_left (PointMass.solve_connection self) conns heap !! k = heap !! k.
Proof.
  intros Hself Hall. induction Hall as [|[[other rd] st] conns Hc _ IH];
    intros heap; simpl; [reflexivity|].
  rewrite IH. apply solve_connection_elsewhere; auto.
Qed.

(** X1. [solve_constraints] writes positions only: every point keeps its
    previous position, its flag and its connections; and a point that is
    neither [self] nor the other end of one of the connections of [self]
    is not moved. *)
Theorem solve_constraints_footprint heap self s :
  heap !! self = Some s ->
  Forall2 same_but_pos heap (PointMass.solve_constraints heap self) /\
  forall k, k <> self ->
    Forall (fun conn => fst (fst conn) <> k) (PointMass.connections s) ->
    PointMass.solve_constraints heap self !! k = heap !! k.
Proof.
  intros Hs. split; [apply solve_constraints_same|].
  intros k Hk Hall. unfold PointMass.solve_constraints. rewrite Hs.
  now apply solve_connections_elsewhere.
Qed.
(** ** The structure of the curtain through the frames *)

Lemma update_same_or_torn (dt : N) p : same_or_torn p (PointMass.update dt p).
Proof.
  unfold PointMass.update. destruct (negb (PointMass.fixed p));
    split; simpl; auto.
Qed.

Lemma apply_constraint_same_or_torn (w h : N) p :
  same_or_torn p (PointMass.apply_constraint w h p).
Proof. split; simpl; auto. Qed.

Lemma interact_point_same_or_torn (m : N * N) (l r : bool) p :
  same_or_torn p (Curtain.interact_point m l r p).
Proof.
  unfold Curtain.interact_point.
  destruct (l && _), (negb (PointMass.fixed p)), (r && _); split; simpl; auto.
Qed.

Lemma for_points_solve_same pts :
  Forall2 same_but_pos pts (Curtain.for_points PointMass.solve_constraints pts).
Proof.
  unfold Curtain.for_points. generalize (seq 0 (length pts)). intros order.
  revert pts. induction order as [|i order IH]; intros pts; simpl.
  - apply Forall2_diag, same_but_pos_refl.
  - eapply Forall2_trans; [apply same_but_pos_trans | | apply IH].
    apply solve_constraints_same.
Qed.

Lemma rounds_same {A} (rounds : list A) : forall pts,
  Forall2 same_but_pos pts
    (fold_left (fun pts _ => Curtain.for_points PointMass.solve_constraints pts)
               rounds pts).
Proof.
  induction rounds as [|z rounds IH]; intros pts; simpl.
  - apply Forall2_diag, same_but_pos_refl.
  - eapply Forall2_trans; [apply same_but_pos_trans | | apply IH].
    apply for_points_solve_same.
Qed.

Lemma curtain_update_same_or_torn (dt : N) c :
  Forall2 same_or_torn (Curtain.points c) (Curtain.points (Curtain.update dt c)).
Proof.
  unfold Curtain.update. rewrite for_points_call.
  cbn [Curtain.points Curtain.set_points].
  eapply Forall2_trans; [apply same_or_torn_trans | |].
  - apply Forall2_map_r, update_same_or_torn.
  - eapply Forall2_impl; [apply rounds_same | apply same_but_pos_weaken].
Qed.

Lemma frame_same_or_torn (dt : N) (m : N * N) (l r : bool) c :
  Forall2 same_or_torn (Curtain.points c) (Curtain.points (Curtain.frame dt m l r c)).
Proof.
  unfold Curtain.frame, Curtain.interact_with_mouse, Curtain.apply_constraints.
  rewrite !for_points_call. cbn [Curtain.points Curtain.set_points].
  eapply Forall2_trans; [apply same_or_torn_trans | apply curtain_update_same_or_torn |].
  eapply Forall2_trans; [apply same_or_torn_trans | |].
  - apply Forall2_map_r, apply_constraint_same_or_torn.
  - apply Forall2_map_r, interact_point_same_or_torn.
Qed.

Lemma run_same_or_torn (inputs : list (Main.input N)) : forall c,
  Forall2 same_or_torn (Curtain.points c) (Curtain.points (Main.run inputs c)).
Proof.
  induction inputs as [|i inputs IH]; intros c; simpl.
  - apply Forall2_diag, same_or_torn_refl.
  - eapply Forall2_trans; [apply same_or_torn_trans | | apply IH].
    apply frame_same_or_torn.
Qed.

Lemma run_dimensions (inputs : list (Main.input N)) : forall c,
  Curtain.width (Main.run inputs c) = Curtain.width c /\
  Curtain.height (Main.run inputs c) = Curtain.height c /\
  Curtain.resting_distance (Main.run inputs c) = Curtain.resting_distance c.
Proof.
  induction inputs as [|i inputs IH]; intros c; simpl; [auto|].
  destruct (IH (Curtain.frame (Main.dt i) (Main.mouse_pos i) (Main.left_click i)
                               (Main.right_click i) c)) as (A & B & C).
  rewrite A, B, C. auto.
Qed.

(** X2. However many turns the loop of [main] makes and whatever it
    reads, the curtain keeps its points: their number and order, the flag
    of each point, and its connections, which are the ones it had or none
    at all; the dimensions and the resting distance stay too. *)
Theorem run_keeps_structure (inputs : list (Main.input N)) c :
  Forall2 same_or_torn (Curtain.points c) (Curtain.points (Main.run inputs c)) /\
  length (Curtain.points (Main.run inputs c)) = length (Curtain.points c) /\
  Curtain.width (Main.run inputs c) = Curtain.width c /\
  Curtain.height (Main.run inputs c) = Curtain.height c /\
  Curtain.resting_distance (Main.run inputs c) = Curtain.resting_distance c.
Proof.
  pose proof (run_same_or_torn inputs c) as Hrun.
  split; [exact Hrun|]. split.
  - symmetry. eapply Forall2_length, Hrun.
  - apply run_dimensions.
Qed.

(** X3. Tearing lasts: a point without connections has none after any
    number of turns of the loop, and [solve_constraints] called on it
    changes nothing. *)
Theorem torn_stays_torn (inputs : list (Main.input N)) c k p :
  Curtain.points c !! k = Some p -> PointMass.connections p = [] ->
  exists p',
    Curtain.points (Main.run inputs c) !! k = Some p' /\
    PointMass.connections p' = [] /\
    PointMass.solve_constraints (Curtain.points (Main.run inputs c)) k
    = Curtain.points (Main.run inputs c).
Proof.
  intros Hk Hp.
  destruct (Forall2_lookup_l _ _ _ k p (run_same_or_torn inputs c) Hk)
    as (p' & Hk' & _ & Hconn).
  assert (Hp' : PointMass.connections p' = []).
  { destruct Hconn as [E|E]; congruence. }
  exists p'. split; [exact Hk'|]. split; [exact Hp'|].
  now apply (solve_constraints_torn _ k p').
Qed.

(** X4. [Curtain.update] as a whole (the integration and the five
    passes) leaves every fixed point exactly as it is, and keeps the number
    of points. *)
Theorem update_keeps_fixed_points (dt : N) c k p :
  Curtain.points c !! k = Some p -> PointMass.fixed p = true ->
  Curtain.points (Curtain.update dt c) !! k = Some p /\
  length (Curtain.points (Curtain.update dt c)) = length (Curtain.points c).
Proof.
  intros Hk Hp. split; [now apply curtain_update_fixed|].
  symmetry. eapply Forall2_length, curtain_update_same_or_torn.
Qed.

Lemma interact_point_idle (m : N * N) p : Curtain.interact_point m false false p = p.
Proof. reflexivity. Qed.

(** X5. With no button down, [interact_with_mouse] leaves the curtain as
    it is, wherever the pointer is. *)
Theorem interact_without_buttons (m : N * N) c :
  Curtain.interact_with_mouse m false false c = c.
Proof.
  unfold Curtain.interact_with_mouse. rewrite for_points_call.
  destruct c as [pts w h rd]. unfold Curtain.set_points. simpl. f_equal.
  induction pts as [|p pts IH]; simpl; [reflexivity|].
  now rewrite IH.
Qed.
End Footprint.

Lemma solve_constraints_footprint_witness :
  Forall2 same_but_pos chain (PointMass.solve_constraints chain 1) /\
  PointMass.solve_constraints chain 1 !! 2%nat = chain !! 2%nat.
Proof.
  destruct (solve_constraints_footprint chain 1%nat bob eq_refl) as [Hsame Hrest].
  split; [exact Hsame|]. apply Hrest; [lia|].
  repeat constructor. simpl. lia.
Defined.

Lemma torn_stays_torn_witness :
  exists p',
    Curtain.points
      (Main.run [Main.mk_input (decimal 1 1) (of_int 7, of_int 7) true true]
                (Curtain.mk chain 0 0 (of_int 10))) !! 2%nat = Some p' /\
    PointMass.connections p' = [] /\
    PointMass.solve_constraints
      (Curtain.points
         (Main.run [Main.mk_input (decimal 1 1) (of_int 7, of_int 7) true true]
                   (Curtain.mk chain 0 0 (of_int 10)))) 2
    = Curtain.points
        (Main.run [Main.mk_input (decimal 1 1) (of_int 7, of_int 7) true true]
                  (Curtain.mk chain 0 0 (of_int 10))).
Proof.
  apply (torn_stays_torn
           [Main.mk_input (decimal 1 1) (of_int 7, of_int 7) true true]
           (Curtain.mk chain 0 0 (of_int 10)) 2%nat loose); reflexivity.
Defined.

Lemma update_keeps_fixed_points_witness :
  Curtain.points (Curtain.update (decimal 1 1) (Curtain.mk chain 0 0 (of_int 10)))
    !! 0%nat = Some pin /\
  length (Curtain.points
            (Curtain.update (decimal 1 1) (Curtain.mk chain 0 0 (of_int 10))))
  = 3%nat.
Proof.
  apply (update_keeps_fixed_points (decimal 1 1)
           (Curtain.mk chain 0 0 (of_int 10)) 0%nat pin); reflexivity.
Defined.

(** * The links of a fresh curtain *)
Section Links.
Context {N : Type} `{Number N}.

(** Every point of the layout sits at the index of its row and column. *)
Lemma grid_points_lookup_inv width height (start_y rd : N) k p :
  grid_points width height start_y rd !! k = Some p ->
  exists row col : Z,
    (0 <= row <= height)%Z /\ (0 <= col <= width)%Z /\
    k = index width row col /\ p = grid_point width start_y rd row col.
Proof.
  intros Hk. pose proof (lookup_lt_Some _ _ _ Hk) as Hlt.
  rewrite grid_points_length in Hlt.
  assert (Hw : (0 < width + 1)%Z) by (destruct (Z_lt_le_dec 0 (width + 1)); [auto | nia]).
  assert (Hh : (0 < height + 1)%Z) by (destruct (Z_lt_le_dec 0 (height + 1)); [auto | nia]).
  pose proof (Z.div_mod (Z.of_nat k) (width + 1) ltac:(lia)) as Hdm.
  pose proof (Z.mod_pos_bound (Z.of_nat k) (width + 1) Hw) as Hmod.
  assert (Hdiv : (0 <= Z.of_nat k / (width + 1) < height + 1)%Z).
  { split; [apply Z.div_pos; lia|]. apply Z.div_lt_upper_bound; nia. }
  exists (Z.of_nat k / (width + 1))%Z, (Z.of_nat k mod (width + 1))%Z.
  assert (Hidx : k = index width (Z.of_nat k / (width + 1)) (Z.of_nat k mod (width + 1))).
  { unfold index. nia. }
  split; [lia|]. split; [lia|]. split; [exact Hidx|].
  rewrite Hidx in Hk. rewrite grid_points_lookup in Hk by lia. congruence.
Qed.

Lemma index_left width row col :
  (0 <= row)%Z -> (0 < col <= width)%Z ->
  (index width row (col - 1) < index width row col)%nat.
Proof. intros Hr Hc. unfold index. nia. Qed.

Lemma index_above width row col :
  (0 < row)%Z -> (0 <= col <= width)%Z ->
  (index width (row - 1) col < index width row col)%nat.
Proof. intros Hr Hc. unfold index. nia. Qed.

(** X6. In a curtain as built, every connection of a point refers to a
    point that comes earlier in the list (so to a point that exists, and
    never to the point itself) and carries the resting distance of the
    curtain and [STIFFNESS]; a point has at most two connections. *)
Theorem fresh_links_point_back (width height : Z) (start_y rd : N)
    (c : Curtain.t N) (k : nat) (p : PointMass.t N) :
  Curtain.init width height start_y rd = Some c ->
  Curtain.points c !! k = Some p ->
  Forall (fun conn => (fst (fst conn) < k)%nat /\
                      snd (fst conn) = rd /\ snd conn = STIFFNESS)
         (PointMass.connections p) /\
  (length (PointMass.connections p) <= 2)%nat.
Proof.
  intros Hinit Hk. rewrite init_layout in Hinit. inversion Hinit; subst c.
  cbn [Curtain.points] in Hk.
  apply grid_points_lookup_inv in Hk as (row & col & Hrow & Hcol & -> & ->).
  unfold grid_point. cbn [PointMass.connections].
  destruct (0 <? col)%Z eqn:Ec, (0 <? row)%Z eqn:Er; simpl; split;
    repeat constructor; try lia;
    try (apply index_left; lia); try (apply index_above; lia).
Qed.

End Links.

Lemma fresh_links_point_back_witness :
  Forall (fun conn : nat * float * float =>
            (fst (fst conn) < 4)%nat /\
            snd (fst conn) = of_int 10 /\ snd conn = STIFFNESS)
         [(3%nat, of_int 10, STIFFNESS); (1%nat, of_int 10, STIFFNESS)] /\
  (2 <= 2)%nat.
Proof.
  apply (fresh_links_point_back 2 2 (of_int 0) (of_int 10)
           (Curtain.mk (grid_points 2 2 (of_int 0) (of_int 10)) 2 2 (of_int 10))
           4%nat
           (PointMass.mk (of_int 10) (of_int 10) (of_int 10) (of_int 10) false
              [(3%nat, of_int 10, STIFFNESS); (1%nat, of_int 10, STIFFNESS)]));
    vm_compute; reflexivity.
Defined.

(** * The screen *)
Section Screen.
Open Scope R_scope.
Implicit Types (p q : PointMass.t R) (c : Curtain.t R).

Lemma clamp_inside (hi v : R) : 0 <= hi -> 0 <= clamp 0 hi v <= hi.
Proof. intros Hhi. unfold clamp. repeat (destruct (Rlt_dec _ _)); lra. Qed.

Lemma clamp_fixpoint (hi v : R) : 0 <= hi -> (clamp 0 hi v = v <-> 0 <= v <= hi).
Proof.
  intros Hhi. unfold clamp. repeat (destruct (Rlt_dec _ _)); split; intros; lra.
Qed.

Lemma apply_constraint_inside (width height : R) p :
  0 <= width -> 0 <= height ->
  inside width height (PointMass.apply_constraint width height p).
Proof.
  intros Hw Hh. unfold inside, PointMass.apply_constraint.
  cbn [PointMass.x PointMass.y]. rewrite !py_clamp by assumption.
  split; now apply clamp_inside.
Qed.

Lemma apply_constraint_id (width height : R) p :
  0 <= width -> 0 <= height -> inside width height p ->
  PointMass.apply_constraint width height p = p.
Proof.
  intros Hw Hh [Hx Hy]. unfold PointMass.apply_constraint.
  rewrite !py_clamp by assumption.
  rewrite (proj2 (clamp_fixpoint width _ Hw) Hx).
  rewrite (proj2 (clamp_fixpoint height _ Hh) Hy).
  now destruct p.
Qed.

(** X7. [apply_constraints] puts every point of the curtain inside
    [[0, width] x [0, height]], and a point is left as it is exactly when
    it is inside already. *)
Theorem apply_constraints_inside (width height : R) c :
  0 <= width -> 0 <= height ->
  Forall (inside width height)
         (Curtain.points (Curtain.apply_constraints width height c)) /\
  forall p, PointMass.apply_constraint width height p = p <-> inside width height p.
Proof.
  intros Hw Hh. split.
  - unfold Curtain.apply_constraints. rewrite for_points_call.
    cbn [Curtain.points Curtain.set_points].
    induction (Curtain.points c) as [|p pts IH]; simpl; constructor;
      [now apply apply_constraint_inside | exact IH].
  - intros p. split.
    + intros E. rewrite <- E. now apply apply_constraint_inside.
    + now apply apply_constraint_id.
Qed.

Lemma apply_constraints_inside_witness :
  Forall (inside 640 480)
         (Curtain.points (Curtain.apply_constraints 640 480 (Curtain.mk [strayR] 0 0 10))).
Proof.
  apply (apply_constraints_inside 640 480 (Curtain.mk [strayR] 0 0 10)); lra.
Defined.

(** X8. Clamping a curtain twice is clamping it once, whatever the
    bounds. *)
Theorem apply_constraints_idempotent (width height : R) c :
  Curtain.apply_constraints width height (Curtain.apply_constraints width height c)
  = Curtain.apply_constraints width height c.
Proof.
  unfold Curtain.apply_constraints. rewrite !for_points_call.
  cbn [Curtain.points Curtain.set_points Curtain.width Curtain.height
       Curtain.resting_distance].
  f_equal. induction (Curtain.points c) as [|p pts IH]; simpl; [reflexivity|].
  now rewrite apply_constraint_idempotent, IH.
Qed.

Lemma interact_point_inside (m : R * R) (l r : bool) (width height : R) p :
  inside width height p -> 0 <= fst m <= width -> 0 <= snd m <= height ->
  inside width height (Curtain.interact_point m l r p).
Proof.
  intros Hp Hmx Hmy. unfold Curtain.interact_point, inside.
  destruct (l && _), (negb (PointMass.fixed p)), (r && _); simpl;
    (split; [exact Hmx || apply Hp | exact Hmy || apply Hp]).
Qed.

(** X9. At the end of a turn of the loop of [main] every point is inside
    the screen, provided the pointer is. *)
Theorem frame_ends_inside (dt : R) (m : R * R) (l r : bool) c :
  0 <= fst m <= 640 -> 0 <= snd m <= 480 ->
  Forall (inside 640 480) (Curtain.points (Curtain.frame dt m l r c)).
Proof.
  intros Hmx Hmy.
  unfold Curtain.frame, Curtain.interact_with_mouse, Curtain.apply_constraints.
  rewrite !for_points_call. cbn [Curtain.points Curtain.set_points].
  change (of_int SCREEN_WIDTH) with 640. change (of_int SCREEN_HEIGHT) with 480.
  induction (Curtain.points (Curtain.update dt c)) as [|p pts IH]; simpl;
    constructor; [|exact IH].
  apply interact_point_inside; [|exact Hmx|exact Hmy].
  apply apply_constraint_inside; lra.
Qed.

Lemma frame_ends_inside_witness :
  Forall (inside 640 480)
         (Curtain.points (Curtain.frame 0.1 (10, 10) true false (Curtain.mk pair 0 0 10))).
Proof.
  apply (frame_ends_inside 0.1 (10, 10) true false (Curtain.mk pair 0 0 10));
    simpl; lra.
Defined.
End Screen.

(** * Fixed points through the loop *)
Section Pinned.
Open Scope R_scope.
Implicit Types (p q : PointMass.t R) (c : Curtain.t R).

Lemma frame_pinned (dt : R) (m : R * R) (l r : bool) c k p :
  Curtain.points c !! k = Some p -> PointMass.fixed p = true ->
  inside 640 480 p ->
  exists p',
    Curtain.points (Curtain.frame dt m l r c) !! k = Some p' /\
    PointMass.x p' = PointMass.x p /\ PointMass.y p' = PointMass.y p /\
    PointMass.prev_x p' = PointMass.prev_x p /\
    PointMass.prev_y p' = PointMass.prev_y p /\
    PointMass.fixed p' = true.
Proof.
  intros Hk Hp Hin.
  unfold Curtain.frame, Curtain.interact_with_mouse, Curtain.apply_constraints.
  rewrite !for_points_call. cbn [Curtain.points Curtain.set_points].
  change (of_int SCREEN_WIDTH) with 640. change (of_int SCREEN_HEIGHT) with 480.
  rewrite !list_lookup_fmap, (curtain_update_fixed dt c k p Hk Hp).
  cbn [fmap option_fmap option_map].
  rewrite (apply_constraint_id 640 480 p) by (lra || exact Hin).
  eexists. split; [reflexivity|].
  unfold Curtain.interact_point. rewrite Hp.
  destruct (l && _), (r && _); simpl; auto.
Qed.

Lemma run_pinned (inputs : list (Main.input R)) k : forall c p,
  Curtain.points c !! k = Some p -> PointMass.fixed p = true ->
  inside 640 480 p ->
  exists p',
    Curtain.points (Main.run inputs c) !! k = Some p' /\
    PointMass.x p' = PointMass.x p /\ PointMass.y p' = PointMass.y p /\
    PointMass.prev_x p' = PointMass.prev_x p /\
    PointMass.prev_y p' = PointMass.prev_y p /\
    PointMass.fixed p' = true.
Proof.
  induction inputs as [|i inputs IH]; intros c p Hk Hp Hin; simpl.
  - exists p. repeat split; auto.
  - destruct (frame_pinned (Main.dt i) (Main.mouse_pos i) (Main.left_click i)
                (Main.right_click i) c k p Hk Hp Hin)
      as (p1 & Hk1 & Ex & Ey & Epx & Epy & Hp1).
    destruct (IH _ p1 Hk1 Hp1) as (p' & Hk' & Ex' & Ey' & Epx' & Epy' & Hp').
    { unfold inside in *. now rewrite Ex, Ey. }
    exists p'. repeat split; congruence.
Qed.

(** X10. A fixed point that is inside the screen never moves: after any
    number of turns of the loop of [main], whatever the time steps, the
    pointer and the buttons, it has the position and the previous position
    it had, and is still fixed.  In particular a drag does not move it. *)
Theorem pinned_points_stay (inputs : list (Main.input R)) c k p :
  Curtain.points c !! k = Some p -> PointMass.fixed p = true ->
  inside 640 480 p ->
  exists p',
    Curtain.points (Main.run inputs c) !! k = Some p' /\
    PointMass.x p' = PointMass.x p /\ PointMass.y p' = PointMass.y p /\
    PointMass.prev_x p' = PointMass.prev_x p /\
    PointMass.prev_y p' = PointMass.prev_y p /\
    PointMass.fixed p' = true.
Proof. apply run_pinned. Qed.

Lemma pinned_points_stay_witness :
  exists p',
    Curtain.points
      (Main.run [Main.mk_input 0.1 (1, 1) true true]
                (Curtain.mk [PointMass.init 0 0 true] 0 0 10)) !! 0%nat = Some p' /\
    PointMass.x p' = 0 /\ PointMass.y p' = 0 /\
    PointMass.prev_x p' = 0 /\ PointMass.prev_y p' = 0 /\
    PointMass.fixed p' = true.
Proof.
  apply (pinned_points_stay [Main.mk_input 0.1 (1, 1) true true]
           (Curtain.mk [PointMass.init 0 0 true] 0 0 10) 0%nat
           (PointMass.init 0 0 true)).
  - reflexivity.
  - reflexivity.
  - unfold inside. simpl. lra.
Defined.

(** X11. The top row of the curtain of [main] stays where it was built:
    after any number of turns of the loop, the point of column [col] of
    row 0 is at [(10 * col, 50)]. *)
Theorem main_top_row_stays (inputs : list (Main.input R)) (col : Z) :
  (0 <= col <= 60)%Z ->
  exists c0 p',
    Main.curtain = Some c0 /\
    Curtain.points (Main.run inputs c0) !! Z.to_nat col = Some p' /\
    PointMass.x p' = 10 * IZR col /\ PointMass.y p' = 50 /\
    PointMass.fixed p' = true.
Proof.
  intros Hcol. unfold Main.curtain. rewrite init_layout.
  set (c0 := Curtain.mk _ _ _ _). exists c0.
  assert (Hlk : Curtain.points c0 !! Z.to_nat col
                = Some (grid_point 60 (of_int START_Y) (of_int RESTING_DISTANCE) 0 col)).
  { subst c0. cbn [Curtain.points].
    replace (Z.to_nat col) with (index CURTAIN_WIDTH 0 col)
      by (unfold index, CURTAIN_WIDTH; lia).
    apply grid_points_lookup; unfold CURTAIN_WIDTH, CURTAIN_HEIGHT; lia. }
  assert (Hc : 0 <= IZR col <= 60) by (split; apply IZR_le; lia).
  destruct (run_pinned inputs (Z.to_nat col) c0 _ Hlk)
    as (p' & Hk' & Ex & Ey & _ & _ & Hp').
  - reflexivity.
  - unfold inside, grid_point. cbn [PointMass.x PointMass.y].
    change (of_int RESTING_DISTANCE) with 10. change (of_int START_Y) with 50.
    cbn [add mul of_int R_Number]. lra.
  - exists p'. split; [reflexivity|]. split; [exact Hk'|].
    rewrite Ex, Ey. unfold grid_point. cbn [PointMass.x PointMass.y].
    change (of_int RESTING_DISTANCE) with 10. change (of_int START_Y) with 50.
    cbn [add mul of_int R_Number]. repeat split; [lra | lra | exact Hp'].
Qed.

Lemma main_top_row_stays_witness :
  exists c0 p',
    Main.curtain = Some c0 /\
    Curtain.points (Main.run [Main.mk_input 0.1 (30, 50) true true] c0)
      !! 3%nat = Some p' /\
    PointMass.x p' = 10 * 3 /\ PointMass.y p' = 50 /\
    PointMass.fixed p' = true.
Proof.
  apply (main_top_row_stays [Main.mk_input 0.1 (30, 50) true true] 3). lia.
Defined.
End Pinned.

(** * Links that have nothing to correct *)
Section Rest.
Open Scope R_scope.
Implicit Types (p q s o : PointMass.t R) (heap : list (PointMass.t R)).

Lemma set_pos_same s (a b : R) :
  a = PointMass.x s -> b = PointMass.y s -> PointMass.set_pos s a b = s.
Proof. intros -> ->. now destruct s. Qed.

(** A link whose ends are at the resting distance. *)
Lemma solve_connection_at_rest heap self other (rd st : R) s o :
  heap !! self = Some s -> heap !! other = Some o ->
  distance s o = rd ->
  PointMass.solve_connection self heap (other, rd, st) = heap.
Proof.
  intros Hs Ho Hd. unfold PointMass.solve_connection. rewrite Hs, Ho.
  change (sqrt (add (pow2 (sub (PointMass.x o) (PointMass.x s)))
                    (pow2 (sub (PointMass.y o) (PointMass.y s)))))
    with (distance s o).
  rewrite Hd. destruct (eqb rd (of_int 0)); [reflexivity|].
  assert (E : mul (mul (div (sub rd rd) rd) (decimal 5 1)) st = 0).
  { cbn [mul div sub R_Number]. unfold Rdiv. ring. }
  rewrite E. cbn [mul sub add R_Number].
  assert (H1 : (if negb (PointMass.fixed s)
                then <[self := PointMass.set_pos s
                                 (PointMass.x s - 0 * (PointMass.x o - PointMass.x s))
                                 (PointMass.y s - 0 * (PointMass.y o - PointMass.y s))]> heap
                else heap) = heap).
  { destruct (negb (PointMass.fixed s)); [|reflexivity].
    rewrite set_pos_same by ring. now apply list_insert_id. }
  rewrite H1, Ho.
  destruct (negb (PointMass.fixed o)); [|reflexivity].
  rewrite set_pos_same by ring. now apply list_insert_id.
Qed.

Lemma distance_left width (start_y rd : R) row col :
  0 <= rd ->
  distance (grid_point width start_y rd row col)
           (grid_point width start_y rd row (col - 1)) = rd.
Proof.
  intros Hrd. unfold distance, grid_point. cbn [PointMass.x PointMass.y].
  cbn [add mul of_int R_Number]. rewrite minus_IZR.
  replace (_ + _) with (rd * rd) by ring.
  now apply sqrt_square.
Qed.

Lemma distance_above width (start_y rd : R) row col :
  0 <= rd ->
  distance (grid_point width start_y rd row col)
           (grid_point width start_y rd (row - 1) col) = rd.
Proof.
  intros Hrd. unfold distance, grid_point. cbn [PointMass.x PointMass.y].
  cbn [add mul of_int R_Number]. rewrite minus_IZR.
  replace (_ + _) with (rd * rd) by ring.
  now apply sqrt_square.
Qed.

Lemma fresh_solve_constraints width height (start_y rd : R) k :
  0 <= rd ->
  PointMass.solve_constraints (grid_points width height start_y rd) k
  = grid_points width height start_y rd.
Proof.
  intros Hrd. unfold PointMass.solve_constraints.
  destruct (grid_points width height start_y rd !! k) as [p|] eqn:Hk;
    [|reflexivity].
  pose proof Hk as Hk0.
  apply grid_points_lookup_inv in Hk as (row & col & Hrow & Hcol & -> & ->).
  assert (Hleft : (0 < col)%Z ->
            PointMass.solve_connection (index width row col)
              (grid_points width height start_y rd)
              (index width row (col - 1), rd, STIFFNESS)
            = grid_points width height start_y rd).
  { intros Hc. eapply solve_connection_at_rest;
      [exact Hk0 | apply grid_points_lookup; lia | now apply distance_left]. }
  assert (Habove : (0 < row)%Z ->
            PointMass.solve_connection (index width row col)
              (grid_points width height start_y rd)
              (index width (row - 1) col, rd, STIFFNESS)
            = grid_points width height start_y rd).
  { intros Hr. eapply solve_connection_at_rest;
      [exact Hk0 | apply grid_points_lookup; lia | now apply distance_above]. }
  unfold grid_point at 1. cbn [PointMass.connections].
  destruct (0 <? col)%Z eqn:Ec, (0 <? row)%Z eqn:Er; cbn [app fold_left];
    try apply Z.ltb_lt in Ec; try apply Z.ltb_lt in Er;
    rewrite ?Hleft, ?Habove by assumption; reflexivity.
Qed.

Lemma fresh_fold_solve width height (start_y rd : R) (order : list nat) :
  0 <= rd ->
  fold_left PointMass.solve_constraints order (grid_points width height start_y rd)
  = grid_points width height start_y rd.
Proof.
  intros Hrd. induction order as [|k order IH]; simpl; [reflexivity|].
  now rewrite fresh_solve_constraints.
Qed.

Lemma update_at_rest p :
  PointMass.prev_x p = PointMass.x p -> PointMass.prev_y p = PointMass.y p ->
  PointMass.update 0 p = p.
Proof.
  intros Hx Hy. unfold PointMass.update.
  destruct p as [px py ppx ppy pf pc]. simpl in *. subst ppx ppy.
  destruct pf; simpl; [reflexivity|]. f_equal; ring.
Qed.

Lemma fresh_update_points width height (start_y rd : R) :
  map (PointMass.update 0) (grid_points width height start_y rd)
  = grid_points width height start_y rd.
Proof.
  apply list_eq. intros k. rewrite list_lookup_fmap.
  destruct (grid_points width height start_y rd !! k) as [p|] eqn:Hk;
    [|reflexivity].
  apply grid_points_lookup_inv in Hk as (row & col & _ & _ & _ & ->).
  simpl. f_equal. now apply update_at_rest.
Qed.

(** X12. A curtain as built, with a resting distance that is not
    negative, is at rest: a relaxation pass changes nothing in it, and
    neither does [update] with a time step of 0. *)
Theorem fresh_curtain_at_rest (width height : Z) (start_y rd : R)
    (c : Curtain.t R) :
  0 <= rd ->
  Curtain.init width height start_y rd = Some c ->
  Curtain.for_points PointMass.solve_constraints (Curtain.points c)
  = Curtain.points c /\
  Curtain.update 0 c = c.
Proof.
  intros Hrd Hinit. rewrite init_layout in Hinit. inversion Hinit; subst c.
  cbn [Curtain.points]. split.
  - unfold Curtain.for_points. now apply fresh_fold_solve.
  - unfold Curtain.update. rewrite for_points_call.
    cbn [Curtain.points Curtain.set_points Curtain.width Curtain.height
         Curtain.resting_distance].
    rewrite fresh_update_points. f_equal.
    unfold Curtain.for_points.
    induction (range 5) as [|z zs IH]; simpl; [reflexivity|].
    rewrite fresh_fold_solve by assumption. exact IH.
Qed.

Lemma fresh_curtain_at_rest_witness :
  Curtain.update 0 (Curtain.mk (grid_points 2 2 0 10) 2 2 10)
  = Curtain.mk (grid_points 2 2 0 10) 2 2 10.
Proof.
  apply (fresh_curtain_at_rest 2 2 0 10); [lra | apply init_layout].
Defined.

(** X13. A point whose only link is at its resting distance is not moved
    by [solve_constraints], and neither is the other end. *)
Theorem link_at_rest_is_stable heap self other (rd st : R) s o :
  heap !! self = Some s -> heap !! other = Some o ->
  PointMass.connections s = [(other, rd, st)] ->
  distance s o = rd ->
  PointMass.solve_constraints heap self = heap.
Proof.
  intros Hs Ho Hc Hd. unfold PointMass.solve_constraints. rewrite Hs, Hc.
  simpl. now apply (solve_connection_at_rest heap self other rd st s o).
Qed.

(** X14. Zero distance: a point linked to a point at the very same
    position (or to itself) is never separated from it, however many passes
    are made. *)
Theorem zero_distance_stability heap self other (rd st : R) s o (n : nat) :
  heap !! self = Some s -> heap !! other = Some o ->
  PointMass.connections s = [(other, rd, st)] ->
  PointMass.x o = PointMass.x s -> PointMass.y o = PointMass.y s ->
  passes n heap self = heap.
Proof.
  intros Hs Ho Hc Hx Hy. induction n as [|n IH]; [reflexivity|].
  unfold passes in *. simpl. rewrite IH.
  unfold PointMass.solve_constraints. rewrite Hs, Hc. simpl.
  now apply (solve_connection_coincident heap self other rd st s o).
Qed.
Lemma rested_distance :
  distance (PointMass.mk 0 0 0 0 false [(1%nat, 5, STIFFNESS)])
           (PointMass.mk 3 4 3 4 false []) = 5.
Proof.
  unfold distance. simpl.
  replace ((3 - 0) * (3 - 0) + (4 - 0) * (4 - 0)) with (5 * 5) by lra.
  apply sqrt_square. lra.
Qed.

Lemma link_at_rest_is_stable_witness :
  PointMass.solve_constraints rested 0 = rested.
Proof.
  apply (link_at_rest_is_stable rested 0%nat 1%nat 5 STIFFNESS _ _
           eq_refl eq_refl eq_refl rested_distance).
Defined.

Lemma zero_distance_stability_witness : passes 3 stacked 0 = stacked.
Proof.
  apply (zero_distance_stability stacked 0%nat 1%nat 10 STIFFNESS _ _ 3%nat
           eq_refl eq_refl eq_refl eq_refl eq_refl).
Defined.
End Rest.

(** * Conservation and motion *)
Section Motion.
Open Scope R_scope.
Implicit Types (p q s o : PointMass.t R) (heap pts : list (PointMass.t R)).

Lemma sum_x_insert heap : forall i q q',
  heap !! i = Some q ->
  sum_x (<[i := q']> heap) = sum_x heap - PointMass.x q + PointMass.x q'.
Proof.
  induction heap as [|p heap IH]; intros i q q' Hi; [discriminate|].
  destruct i as [|i]; simpl in *.
  - inversion Hi; subst. lra.
  - rewrite (IH i q q' Hi). lra.
Qed.

Lemma sum_y_insert heap : forall i q q',
  heap !! i = Some q ->
  sum_y (<[i := q']> heap) = sum_y heap - PointMass.y q + PointMass.y q'.
Proof.
  induction heap as [|p heap IH]; intros i q q' Hi; [discriminate|].
  destruct i as [|i]; simpl in *.
  - inversion Hi; subst. lra.
  - rewrite (IH i q q' Hi). lra.
Qed.

Lemma all_free_same heap heap' :
  Forall2 same_but_pos heap heap' -> all_free heap -> all_free heap'.
Proof.
  unfold all_free. induction 1 as [|p p' heap heap' (_ & _ & Hf & _) _ IH];
    intros Hall; [constructor|].
  inversion Hall; subst. constructor; [congruence | auto].
Qed.

Lemma solve_connection_sums self heap (conn : nat * R * R) :
  all_free heap ->
  sum_x (PointMass.solve_connection self heap conn) = sum_x heap /\
  sum_y (PointMass.solve_connection self heap conn) = sum_y heap.
Proof.
  intros Hfree. destruct conn as [[other rd] st].
  destruct (heap !! self) as [s|] eqn:Hs;
    [|unfold PointMass.solve_connection; rewrite Hs; auto].
  destruct (heap !! other) as [o|] eqn:Ho;
    [|unfold PointMass.solve_connection; rewrite Hs, Ho; auto].
  destruct (decide (self = other)) as [->|Hne].
  - rewrite (solve_connection_self heap other rd st s Hs). auto.
  - rewrite (solve_connection_apart heap self other rd st s o Hs Ho Hne).
    destruct (eqb _ _); [auto|].
    rewrite (Forall_lookup_1 _ _ _ _ Hfree Hs), (Forall_lookup_1 _ _ _ _ Hfree Ho).
    assert (Ho' : forall s', <[self := s']> heap !! other = Some o)
      by (intros s'; now rewrite list_lookup_insert_ne).
    split.
    + rewrite (sum_x_insert _ other o _ (Ho' _)), (sum_x_insert _ self s _ Hs).
      cbn [PointMass.x PointMass.set_pos add sub mul R_Number]. lra.
    + rewrite (sum_y_insert _ other o _ (Ho' _)), (sum_y_insert _ self s _ Hs).
      cbn [PointMass.y PointMass.set_pos add sub mul R_Number]. lra.
Qed.

Lemma solve_connections_sums self (conns : list (nat * R * R)) : forall heap,
  all_free heap ->
  sum_x (fold_left (PointMass.solve_connection self) conns heap) = sum_x heap /\
  sum_y (fold_left (PointMass.solve_connection self) conns heap) = sum_y heap.
Proof.
  induction conns as [|conn conns IH]; intros heap Hfree; simpl; [auto|].
  destruct (solve_connection_sums self heap conn Hfree) as [Ex Ey].
  destruct (IH (PointMass.solve_connection self heap conn)) as [Ex' Ey'].
  { eapply all_free_same; [apply solve_connection_same | exact Hfree]. }
  split; congruence.
Qed.

Lemma solve_constraints_sums heap self :
  all_free heap ->
  sum_x (PointMass.solve_constraints heap self) = sum_x heap /\
  sum_y (PointMass.solve_constraints heap self) = sum_y heap.
Proof.
  intros Hfree. unfold PointMass.solve_constraints.
  destruct (heap !! self); [now apply solve_connections_sums | auto].
Qed.

Lemma fold_solve_sums (order : list nat) : forall heap,
  all_free heap ->
  sum_x (fold_left PointMass.solve_constraints order heap) = sum_x heap /\
  sum_y (fold_left PointMass.solve_constraints order heap) = sum_y heap.
Proof.
  induction order as [|k order IH]; intros heap Hfree; simpl; [auto|].
  destruct (solve_constraints_sums heap k Hfree) as [Ex Ey].
  destruct (IH (PointMass.solve_constraints heap k)) as [Ex' Ey'].
  { eapply all_free_same; [apply solve_constraints_same | exact Hfree]. }
  split; congruence.
Qed.

(** X15. Relaxation moves the two ends of a link by opposite amounts: in
    a store without fixed points, a relaxation pass over all the points
    keeps the sum of the x and the sum of the y of the points (their
    centre of mass). *)
Theorem relaxation_keeps_centroid pts :
  Forall (fun p => PointMass.fixed p = false) pts ->
  sum_x (Curtain.for_points PointMass.solve_constraints pts) = sum_x pts /\
  sum_y (Curtain.for_points PointMass.solve_constraints pts) = sum_y pts.
Proof.
  intros Hfree. unfold Curtain.for_points. now apply fold_solve_sums.
Qed.

Lemma relaxation_keeps_centroid_witness :
  sum_x (Curtain.for_points PointMass.solve_constraints pair) = sum_x pair /\
  sum_y (Curtain.for_points PointMass.solve_constraints pair) = sum_y pair.
Proof.
  apply (relaxation_keeps_centroid pair). repeat constructor.
Defined.

Lemma update_iter_free (dt : R) p (n : nat) :
  PointMass.fixed p = false ->
  let q := Nat.iter n (PointMass.update dt) p in
  PointMass.fixed q = false /\
  PointMass.connections q = PointMass.connections p /\
  PointMass.x q - PointMass.prev_x q = PointMass.x p - PointMass.prev_x p /\
  PointMass.y q - PointMass.prev_y q
  = PointMass.y p - PointMass.prev_y p + 9.8 * dt * dt * INR n /\
  PointMass.x q = PointMass.x p + INR n * (PointMass.x p - PointMass.prev_x p) /\
  PointMass.y q = PointMass.y p + INR n * (PointMass.y p - PointMass.prev_y p)
                  + 9.8 * dt * dt * (INR n * (INR n + 1) / 2).
Proof.
  intros Hp. cbv zeta. induction n as [|n (Hf & Hc & Hvx & Hvy & Hx & Hy)].
  - simpl. repeat split; auto; lra.
  - rewrite S_INR, !Nat.iter_succ.
    set (q := Nat.iter n (PointMass.update dt) p) in *.
    rewrite (update_free dt q Hf), GRAVITY_R.
    cbn [PointMass.x PointMass.y PointMass.prev_x PointMass.prev_y
         PointMass.fixed PointMass.connections add sub mul R_Number].
    repeat split; auto; lra.
Qed.

(** X16. A point that is not fixed, under [update] alone (as a point
    without links that nothing drags): after [n] steps of [dt] it has kept
    its horizontal velocity and has fallen by its initial vertical
    velocity times [n] plus [9.8 * dt * dt * n * (n + 1) / 2]. *)
Theorem free_fall (dt : R) p (n : nat) :
  PointMass.fixed p = false ->
  let q := Nat.iter n (PointMass.update dt) p in
  PointMass.x q = PointMass.x p + INR n * (PointMass.x p - PointMass.prev_x p) /\
  PointMass.y q = PointMass.y p + INR n * (PointMass.y p - PointMass.prev_y p)
                  + 9.8 * dt * dt * (INR n * (INR n + 1) / 2).
Proof.
  intros Hp. cbv zeta.
  destruct (update_iter_free dt p n Hp) as (_ & _ & _ & _ & Hx & Hy).
  split; assumption.
Qed.

Lemma free_fall_witness :
  PointMass.x (Nat.iter 2 (PointMass.update 0.1) bobR) = 3 /\
  PointMass.y (Nat.iter 2 (PointMass.update 0.1) bobR) = 4.294.
Proof.
  destruct (free_fall 0.1 bobR 2 eq_refl) as [Hx Hy].
  split; [rewrite Hx | rewrite Hy]; simpl; lra.
Defined.
End Motion.

(** * A point hanging from a fixed point *)
Section Anchored.
Open Scope R_scope.
Implicit Types (p q s o : PointMass.t R) (heap : list (PointMass.t R)).

Lemma pass_contracts_anchored heap a b r st d o :
  a <> b -> 0 < st <= 1 -> 0 < r -> anchored heap a b r st d o ->
  anchored (PointMass.solve_constraints heap a) a b r st (d + st / 2 * (r - d)) o.
Proof.
  intros Hab Hst Hr (s & Hs & Ho & Fs & Fo & Hc & Hd & Hpos).
  unfold PointMass.solve_constraints. rewrite Hs, Hc. cbn [fold_left].
  rewrite (solve_connection_apart heap a b r st s o Hs Ho Hab).
  rewrite Fs, Fo, half_R. replace 0.5 with (1 / 2) by lra.
  change (sqrt (add (pow2 (sub (PointMass.x o) (PointMass.x s)))
                    (pow2 (sub (PointMass.y o) (PointMass.y s)))))
    with (distance s o).
  rewrite Hd. change (of_int 0) with 0.
  rewrite eqb_R_false by lra.
  cbn [add sub mul div R_Number].
  set (dx := PointMass.x o - PointMass.x s) in *.
  set (dy := PointMass.y o - PointMass.y s) in *.
  set (c := (r - d) / d * (1 / 2) * st).
  assert (Ha : (a < length heap)%nat) by (eapply lookup_lt_Some; eauto).
  assert (Hb : (b < length heap)%nat) by (eapply lookup_lt_Some; eauto).
  eexists. split; [|split].
  - rewrite list_lookup_insert_ne by auto.
    apply list_lookup_insert_eq. exact Ha.
  - apply list_lookup_insert_eq. now rewrite length_insert.
  - cbn [PointMass.fixed PointMass.connections PointMass.set_pos].
    repeat split; try assumption.
    + unfold distance. cbn [PointMass.x PointMass.y PointMass.set_pos].
      assert (Hk : 0 < 1 + c).
      { unfold c. replace (1 + (r - d) / d * (1 / 2) * st)
          with ((d + st / 2 * (r - d)) / d) by (field; lra).
        apply Rdiv_lt_0_compat; nra. }
      replace (PointMass.x o - (PointMass.x s - c * dx))
        with ((1 + c) * dx) by (unfold dx; ring).
      replace (PointMass.y o - (PointMass.y s - c * dy))
        with ((1 + c) * dy) by (unfold dy; ring).
      rewrite sqrt_scale by lra.
      change (R_sqrt.sqrt (dx * dx + dy * dy)) with (distance s o).
      rewrite Hd. unfold c. field. lra.
    + nra.
Qed.

Lemma passes_anchored heap a b r st d o n :
  a <> b -> 0 < st <= 1 -> 0 < r -> anchored heap a b r st d o ->
  exists dn, anchored (passes n heap a) a b r st dn o /\
             dn - r = (1 - st / 2) ^ n * (d - r).
Proof.
  intros Hab Hst Hr Hl. induction n as [|n (dn & Hn & En)].
  - exists d. split; [exact Hl | simpl; lra].
  - exists (dn + st / 2 * (r - dn)). split.
    + apply pass_contracts_anchored; assumption.
    + simpl. replace (dn + st / 2 * (r - dn) - r)
        with ((1 - st / 2) * (dn - r)) by field.
      rewrite En. ring.
Qed.

(** X17. A free point hanging by one link (stiffness in (0, 1], resting
    distance [r > 0]) from a fixed point it does not coincide with: the
    fixed point stays, only the free one moves, and each pass multiplies
    [|distance - r|] by [1 - stiffness / 2], so the link comes to its
    resting distance at half the rate of a link between two free points
    and, unless it is there already, never reaches it. *)
Theorem anchored_link_converges heap (a b : nat) s o (r st : R) (n : nat) :
  a <> b -> heap !! a = Some s -> heap !! b = Some o ->
  PointMass.fixed s = false -> PointMass.fixed o = true ->
  PointMass.connections s = [(b, r, st)] ->
  0 < st <= 1 -> 0 < r -> distance s o <> 0 ->
  passes n heap a !! b = Some o /\
  Rabs (distance_between (passes n heap a) a b - r)
  = (1 - st / 2) ^ n * Rabs (distance s o - r) /\
  (distance s o <> r -> distance_between (passes n heap a) a b <> r).
Proof.
  intros Hab Hs Ho Fs Fo Hc Hst Hr Hd0.
  assert (Hl : anchored heap a b r st (distance s o) o).
  { exists s. repeat split; try assumption.
    pose proof (distance_nonneg s o). lra. }
  destruct (passes_anchored heap a b r st _ o n Hab Hst Hr Hl) as (dn & Hn & En).
  assert (Hdist : distance_between (passes n heap a) a b = dn).
  { destruct Hn as (sn & Hsn & Hon & _ & _ & _ & Hdn & _).
    unfold distance_between. now rewrite Hsn, Hon. }
  assert (Hpow : 0 < (1 - st / 2) ^ n) by (apply pow_lt; lra).
  split; [|split].
  - now destruct Hn as (sn & _ & Hon & _).
  - rewrite Hdist, En, Rabs_mult. f_equal. apply Rabs_pos_eq. lra.
  - intros Hne. rewrite Hdist. intros E.
    assert (Hz : (1 - st / 2) ^ n * (distance s o - r) = 0) by lra.
    apply Rmult_integral in Hz. destruct Hz; lra.
Qed.

Lemma hanging_distance :
  distance (PointMass.mk 3 4 3 4 false [(1%nat, 10, STIFFNESS)])
           (PointMass.mk 0 0 0 0 true []) = 5.
Proof.
  unfold distance. simpl.
  replace ((0 - 3) * (0 - 3) + (0 - 4) * (0 - 4)) with (5 * 5) by lra.
  apply sqrt_square. lra.
Qed.

Lemma anchored_link_converges_witness :
  Rabs (distance_between (passes 2 hanging 0) 0 1 - 10)
  = (1 - STIFFNESS / 2) ^ 2 * Rabs (5 - 10).
Proof.
  rewrite <- hanging_distance.
  refine (proj1 (proj2 (anchored_link_converges hanging 0%nat 1%nat _ _ 10
                          STIFFNESS 2%nat _ eq_refl eq_refl eq_refl eq_refl
                          eq_refl _ _ _))).
  - lia.
  - rewrite STIFFNESS_R. lra.
  - lra.
  - rewrite hanging_distance. lra.
Defined.
End Anchored.
